(** * Real-time guitar effects: circular history buffers and per-sample
      processors (RTProcessing/rtprocessor.py, guitar_effects.py, demo.py)

    Samples are real numbers, indices and sample rates are integers.
    A raised Python exception is modelled by [None]. Module [Binary64]
    repeats the recursive echo in IEEE binary64, where rounding matters
    to the statement. *)

From Stdlib Require Import ZArith Reals Lra Lia Ascii.
From Stdlib Require Import PrimFloat SpecFloat FloatOps.
From stdpp Require Import base list strings gmap.

Local Open Scope Z_scope.

(** ** CircularBuffer (rtprocessor.py) *)

Record CircularBuffer : Type := mkCircularBuffer {
  length_ : Z;
  buf : list R;
  ix : Z
}.

(** [np.mod] on integers takes the sign of the divisor, and yields 0 for a
    zero divisor. *)
Definition np_mod (a b : Z) : Z := if Z.eqb b 0 then 0 else a mod b.

(** [buf[i]] on a numpy array: negative indices count from the end,
    anything out of bounds raises. *)
Definition np_index (l : list R) (i : Z) : option nat :=
  let n := Z.of_nat (length l) in
  if (0 <=? i) && (i <? n) then Some (Z.to_nat i)
  else if (- n <=? i) && (i <? 0) then Some (Z.to_nat (i + n))
  else None.

Module CircularBuffer.

(** [__init__(self, length)]: [np.zeros] refuses a negative size. *)
Definition init (length : Z) : option CircularBuffer :=
  let len := length + 1 in
  if len <? 0 then None
  else Some (mkCircularBuffer len (replicate (Z.to_nat len) 0%R) (len - 1)).

Definition push (self : CircularBuffer) (x : R) : option CircularBuffer :=
  let ix' := np_mod (ix self + 1) (length_ self) in
  match np_index (buf self) ix' with
  | Some i => Some (mkCircularBuffer (length_ self) (<[i:=x]> (buf self)) ix')
  | None => None
  end.

Definition get (self : CircularBuffer) (n : Z) : option R :=
  match np_index (buf self) (np_mod (ix self + length_ self - n) (length_ self)) with
  | Some i => buf self !! i
  | None => None
  end.

End CircularBuffer.

(** ** Effect classes (rtprocessor.py, guitar_effects.py) *)

Local Open Scope R_scope.

(** The attributes each class adds to the base [RTProcessor] object. *)
Inductive attrs : Type :=
| ABase
| AEcho (a b c norm : R) (N : Z)
| ARecursive_Echo (a norm : R) (N : Z)
| ANatural_Echo (a l : R) (N : Z)
| AReverb (a norm : R) (N : Z)
| ABiquad (b1 b2 a1 a2 norm : R)
| AFuzz (T G limit : R)
| AWah (pole_delta phi omega pole_mag pole_phase zero_mag zero_phase b2 a2 : R)
       (b1 a1 : option R)
| ATremolo (depth phi omega : R).

Module RTProcessor.

Record t : Type := mk {
  SF : Z;
  x : CircularBuffer;
  y : CircularBuffer;
  self : attrs
}.

Definition set_x (p : t) (b : CircularBuffer) : t := mk (SF p) b (y p) (self p).
Definition set_y (p : t) (b : CircularBuffer) : t := mk (SF p) (x p) b (self p).
Definition set_self (p : t) (a : attrs) : t := mk (SF p) (x p) (y p) a.

(** [__init__(self, rate, channels=1, max_delay=1)] *)
Definition init (rate channels max_delay : Z) : option t :=
  bx ← CircularBuffer.init max_delay;
  by_ ← CircularBuffer.init max_delay;
  Some (mk rate bx by_ ABase).

End RTProcessor.

(** [int(q * SF)] for a decimal fraction [q = num/den], the product taken
    over the reals: truncation towards zero. *)
Definition int_frac (num den SF : Z) : Z := Z.quot (num * SF) den.

Definition Delta (rate channels : Z) : option RTProcessor.t :=
  RTProcessor.init rate channels 1.

Definition Echo (rate channels : Z) : option RTProcessor.t :=
  p ← RTProcessor.init rate channels rate;
  let a := 1 in
  let b := 0.7 in
  let c := 0.5 in
  Some (RTProcessor.set_self p
          (AEcho a b c (1.0 / (a + b + c)) (int_frac 3 10 (RTProcessor.SF p)))).

Definition Recursive_Echo (rate channels : Z) : option RTProcessor.t :=
  p ← RTProcessor.init rate channels rate;
  let a := 0.7 in
  Some (RTProcessor.set_self p
          (ARecursive_Echo a (1 - a * a) (int_frac 3 10 (RTProcessor.SF p)))).

Definition Natural_Echo (rate channels : Z) : option RTProcessor.t :=
  p ← RTProcessor.init rate channels rate;
  Some (RTProcessor.set_self p
          (ANatural_Echo 0.8 0.7 (int_frac 3 10 (RTProcessor.SF p)))).

Definition Reverb (rate channels : Z) : option RTProcessor.t :=
  p ← RTProcessor.init rate channels rate;
  Some (RTProcessor.set_self p
          (AReverb 0.8 0.5 (int_frac 2 100 (RTProcessor.SF p)))).

Definition Biquad (rate channels : Z) : option RTProcessor.t :=
  p ← RTProcessor.init rate channels 2;
  let pm := 0.98 in
  let pp := 0.1 * PI in
  let zm := 0.9 in
  let zp := 0.06 * PI in
  Some (RTProcessor.set_self p
          (ABiquad (-2 * zm * cos zp) (zm * zm) (-2 * pm * cos pp) (pm * pm) 0.1)).

Definition Fuzz (rate channels : Z) : option RTProcessor.t :=
  p ← RTProcessor.init rate channels 1;
  let T := 0.005 in
  Some (RTProcessor.set_self p (AFuzz T 5 (2147483647 * T))).

(** Python's [/] raises on a zero divisor. *)
Definition py_div (a : R) (b : Z) : option R :=
  if Z.eqb b 0 then None else Some (a / IZR b).

Definition Wah (rate channels : Z) : option RTProcessor.t :=
  p ← RTProcessor.init rate channels 2;
  phi ← py_div (3.0 * 2.0 * PI) (RTProcessor.SF p);
  let zero_mag := 0.9 in
  let pole_mag := 0.99 in
  Some (RTProcessor.set_self p
          (AWah (0.3 * PI) phi 0.0 pole_mag (0.04 * PI) zero_mag (0.06 * PI)
                (zero_mag * zero_mag) (pole_mag * pole_mag) None None)).

Definition Tremolo (rate channels : Z) : option RTProcessor.t :=
  p ← RTProcessor.init rate channels 1;
  phi ← py_div (5 * 2 * PI) (RTProcessor.SF p);
  Some (RTProcessor.set_self p (ATremolo 0.9 phi 0)).

(** [_process(self)]: the per-sample transform, dispatched on the class.
    It returns the output sample and the object with its updated
    attributes. *)
Definition _process (p : RTProcessor.t) : option (R * RTProcessor.t) :=
  let x := RTProcessor.x p in
  let y := RTProcessor.y p in
  match RTProcessor.self p with
  | ABase =>
      x0 ← CircularBuffer.get x 0;
      Some (x0, p)
  | AEcho a b c norm N =>
      x0 ← CircularBuffer.get x 0;
      xN ← CircularBuffer.get x N;
      x2N ← CircularBuffer.get x (2 * N);
      Some (norm * (a * x0 + b * xN + c * x2N), p)
  | ARecursive_Echo a norm N =>
      x0 ← CircularBuffer.get x 0;
      yN ← CircularBuffer.get y N;
      Some (norm * (x0 + a * yN), p)
  | ANatural_Echo a l N =>
      x0 ← CircularBuffer.get x 0;
      x1 ← CircularBuffer.get x 1;
      y1 ← CircularBuffer.get y 1;
      yN ← CircularBuffer.get y N;
      Some (x0 - l * x1 + l * y1 + a * (1 - l) * yN, p)
  | AReverb a norm N =>
      x0 ← CircularBuffer.get x 0;
      xN ← CircularBuffer.get x N;
      yN ← CircularBuffer.get y N;
      Some (norm * (- x0 + xN + a * yN), p)
  | ABiquad b1 b2 a1 a2 norm =>
      x0 ← CircularBuffer.get x 0;
      x1 ← CircularBuffer.get x 1;
      x2 ← CircularBuffer.get x 2;
      y1 ← CircularBuffer.get y 1;
      y2 ← CircularBuffer.get y 2;
      Some (norm * (x0 + b1 * x1 + b2 * x2 - a1 * y1 - a2 * y2), p)
  | AFuzz T G limit =>
      y0 ← CircularBuffer.get x 0;
      let y1 := if Rlt_dec limit y0 then limit else y0 in
      let y2 := if Rlt_dec y1 (- limit) then - limit else y1 in
      Some (G * y2, p)
  | AWah pole_delta phi omega pole_mag pole_phase zero_mag zero_phase b2 a2 _ _ =>
      let d := pole_delta * (1.0 + cos omega) / 2.0 in
      let omega' := omega + phi in
      let b1 := -2.0 * zero_mag * cos (zero_phase + d) in
      let a1 := -2.0 * pole_mag * cos (pole_phase + d) in
      let p' := RTProcessor.set_self p
                  (AWah pole_delta phi omega' pole_mag pole_phase zero_mag
                        zero_phase b2 a2 (Some b1) (Some a1)) in
      x0 ← CircularBuffer.get x 0;
      x1 ← CircularBuffer.get x 1;
      x2 ← CircularBuffer.get x 2;
      y1 ← CircularBuffer.get y 1;
      y2 ← CircularBuffer.get y 2;
      Some (0.3 * (x0 + b1 * x1 + b2 * x2 - a1 * y1 - a2 * y2), p')
  | ATremolo depth phi omega =>
      let omega' := omega + phi in
      let p' := RTProcessor.set_self p (ATremolo depth phi omega') in
      x0 ← CircularBuffer.get x 0;
      Some (((1.0 - depth) + depth * 0.5 * (1 + cos omega')) * x0, p')
  end.

(** [RTProcessor.process(self, sample)] *)
Definition process (p : RTProcessor.t) (sample : R) : option (R * RTProcessor.t) :=
  bx ← CircularBuffer.push (RTProcessor.x p) sample;
  '(out, q) ← _process (RTProcessor.set_x p bx);
  by_ ← CircularBuffer.push (RTProcessor.y q) out;
  Some (out, RTProcessor.set_y q by_).

(** Feeding a whole input sequence, one [process] call per sample, in
    order. *)
Fixpoint process_all (p : RTProcessor.t) (samples : list R)
  : option (list R * RTProcessor.t) :=
  match samples with
  | [] => Some ([], p)
  | s :: rest =>
      '(out, q) ← process p s;
      '(outs, r) ← process_all q rest;
      Some (out :: outs, r)
  end.

(** The catalog. *)
Inductive effect : Type :=
| EDelta | EEcho | ERecursive_Echo | ENatural_Echo | EReverb
| EBiquad | EFuzz | EWah | ETremolo.

Definition construct (e : effect) (rate channels : Z) : option RTProcessor.t :=
  match e with
  | EDelta => Delta rate channels
  | EEcho => Echo rate channels
  | ERecursive_Echo => Recursive_Echo rate channels
  | ENatural_Echo => Natural_Echo rate channels
  | EReverb => Reverb rate channels
  | EBiquad => Biquad rate channels
  | EFuzz => Fuzz rate channels
  | EWah => Wah rate channels
  | ETremolo => Tremolo rate channels
  end.

(** The output sequence of a freshly constructed effect. *)
Definition run (e : effect) (rate channels : Z) (samples : list R) : option (list R) :=
  p ← construct e rate channels;
  fst <$> process_all p samples.

(** ** The demo's control path (demo.py, [main]) *)

Local Open Scope Z_scope.

Definition RATE : Z := 16000.
Definition CHANNELS : Z := 1.

Definition ord (c : ascii) : Z := Z.of_nat (nat_of_ascii c).

(** A class as the module [guitar_effects] shows it to [inspect]: its name,
    its [order] attribute, its [__module__], and its constructor called
    with [(rate, channels)]. *)
Record py_class : Type := mkClass {
  cls_name : string;
  cls_order : Z;
  cls_module : string;
  cls_new : Z → Z → option RTProcessor.t
}.

(** [inspect.getmembers(module, inspect.isclass)]: every class bound in
    the module, the two imported ones included, by name. *)
Definition getmembers : list py_class := [
  mkClass "Biquad" 50 "guitar_effects" Biquad;
  mkClass "Delta" 0 "rtprocessor" Delta;
  mkClass "Echo" 10 "guitar_effects" Echo;
  mkClass "Fuzz" 60 "guitar_effects" Fuzz;
  mkClass "Natural_Echo" 30 "guitar_effects" Natural_Echo;
  mkClass "RTProcessor" 1000000 "rtprocessor"
          (λ rate channels, RTProcessor.init rate channels 1);
  mkClass "Recursive_Echo" 20 "guitar_effects" Recursive_Echo;
  mkClass "Reverb" 40 "guitar_effects" Reverb;
  mkClass "Tremolo" 80 "guitar_effects" Tremolo;
  mkClass "Wah" 70 "guitar_effects" Wah
].

(** [getattr(processing_module, name)]; [None] is an [AttributeError]. *)
Definition getattr (name : string) : option (Z → Z → option RTProcessor.t) :=
  cls_new <$> find (λ c, String.eqb (cls_name c) name) getmembers.

(** [sorted] on [(order, name)] pairs. *)
Definition pair_leb (a b : Z * string) : bool :=
  (a.1 <? b.1) || ((a.1 =? b.1) && String.leb a.2 b.2).

Fixpoint insert_sorted (a : Z * string) (l : list (Z * string)) : list (Z * string) :=
  match l with
  | [] => [a]
  | b :: rest => if pair_leb a b then a :: l else b :: insert_sorted a rest
  end.

Definition sorted (l : list (Z * string)) : list (Z * string) :=
  foldr insert_sorted [] l.

(** The menu: key 0 is ["Delta"], then the classes of [guitar_effects] by
    ascending [order]. *)
Definition choices : gmap Z string :=
  let p := sorted ((λ c, (cls_order c, cls_name c)) <$>
                   filter (λ c, cls_module c = "guitar_effects"%string) getmembers) in
  foldl (λ m ic, <[Z.of_nat ic.1 + 1 := ic.2.2]> m)
        {[ 0 := "Delta"%string ]}
        (imap (λ i c, (i, c)) p).

(** The active-processor slot. [instance] tells the processor objects
    apart: it is the number of objects constructed before this one. *)
Record session : Type := mkSession {
  processor : RTProcessor.t;
  instance : nat;
  constructed : nat
}.

Inductive outcome : Type :=
| Continue (s : session)   (* the loop goes on to its next iteration *)
| Quit (s : session)       (* [break]: the stream is stopped and closed *)
| Crash.                   (* an exception leaves [main] *)

(** One iteration of the [while] loop, for the key code [poll_keyboard]
    returned (an integer, 0 when no key was pressed). The quit key is
    tested first; any other code becomes the selection key
    [polled - ord('0')]. Only a [KeyError] is caught. *)
Definition control_step (s : session) (polled : Z) : outcome :=
  if polled =? ord "q"%char then Quit s
  else
    let key := polled - ord "0"%char in
    match choices !! key with
    | None => Continue s
    | Some name =>
        match getattr name with
        | None => Crash
        | Some new =>
            match new RATE CHANNELS with
            | None => Crash
            | Some p => Continue (mkSession p (constructed s) (S (constructed s)))
            end
        end
    end.

(** The catalog in menu order. *)
Definition menu : list effect :=
  [EDelta; EEcho; ERecursive_Echo; ENatural_Echo; EReverb; EBiquad; EFuzz;
   EWah; ETremolo].

Local Open Scope R_scope.

(** ** Vocabulary of the statements *)

(** Pushing a whole sequence, first element first. *)
Fixpoint push_all (b : CircularBuffer) (vs : list R) : option CircularBuffer :=
  match vs with
  | [] => Some b
  | v :: rest => b' ← CircularBuffer.push b v; push_all b' rest
  end.

(** The shape every buffer built by [CircularBuffer.init] with a
    non-negative delay has, and keeps. *)
Definition buffer_ok (b : CircularBuffer) : Prop :=
  (0 < length_ b ∧ Z.of_nat (length (buf b)) = length_ b ∧ 0 ≤ ix b < length_ b)%Z.

(** [b] holds the history [h] (most recent value first, zeros before the
    first push) at every offset within its capacity. *)
Definition holds (b : CircularBuffer) (h : list R) : Prop :=
  buffer_ok b ∧
  ∀ k, (0 ≤ k < length_ b)%Z →
       CircularBuffer.get b k = Some (nth (Z.to_nat k) h 0).

(** Both histories of a processor are well shaped. *)
Definition processor_ok (p : RTProcessor.t) : Prop :=
  buffer_ok (RTProcessor.x p) ∧ buffer_ok (RTProcessor.y p).

(** The processor has seen the inputs [hx] and produced the outputs [hy]
    (both most recent first). *)
Definition has_history (p : RTProcessor.t) (hx hy : list R) : Prop :=
  holds (RTProcessor.x p) hx ∧ holds (RTProcessor.y p) hy.

(** The clamp of [Fuzz] is the identity at 0 only for a limit that is not
    negative; the other classes need nothing. *)
Definition limit_nonneg (a : attrs) : Prop :=
  match a with
  | AFuzz _ _ limit => 0 <= limit
  | _ => True
  end.

Definition all_zero (h : list R) : Prop := Forall (λ v, v = 0) h.

(** The classes whose transform rewrites attributes of the object (the
    oscillator phase and the coefficients derived from it). *)
Definition time_varying (a : attrs) : bool :=
  match a with
  | AWah _ _ _ _ _ _ _ _ _ _ _ | ATremolo _ _ _ => true
  | _ => false
  end.

(** A recurrence run from given histories: [step] receives the inputs up
    to and including the current one and the outputs before the current
    one, both most recent first. *)
Fixpoint difference_equation (step : list R → list R → R)
    (hx hy : list R) (xs : list R) : list R :=
  match xs with
  | [] => []
  | s :: rest =>
      let out := step (s :: hx) hy in
      out :: difference_equation step (s :: hx) (out :: hy) rest
  end.

(** [v[n-k]]: the entry [k] samples back, 0 before the first sample. *)
Definition back (h : list R) (k : nat) : R := nth k h 0.

(** *** The biquad of the specification

    Written from the specification's words:
    [y[n] = norm (x[n] + b1 x[n-1] + b2 x[n-2] - a1 y[n-1] - a2 y[n-2])],
    where [y[n-k]] is the output [k] samples before the current one. *)
Definition Biquad_norm : R := 0.1.
Definition Biquad_b1 : R := -2 * 0.9 * cos (0.06 * PI).
Definition Biquad_b2 : R := 0.9 * 0.9.
Definition Biquad_a1 : R := -2 * 0.98 * cos (0.1 * PI).
Definition Biquad_a2 : R := 0.98 * 0.98.

Definition Biquad_spec_step (hx hy : list R) : R :=
  Biquad_norm * (back hx 0 + Biquad_b1 * back hx 1 + Biquad_b2 * back hx 2
                 - Biquad_a1 * back hy 0 - Biquad_a2 * back hy 1).

Definition Biquad_spec (xs : list R) : list R :=
  difference_equation Biquad_spec_step [] [] xs.

(** What [Biquad._process] reads instead: when it runs, the current output
    is not yet in [y], so [y.get(1)] and [y.get(2)] are the outputs two and
    three samples back. *)
Definition Biquad_code_step (hx hy : list R) : R :=
  Biquad_norm * (back hx 0 + Biquad_b1 * back hx 1 + Biquad_b2 * back hx 2
                 - Biquad_a1 * back hy 1 - Biquad_a2 * back hy 2).

(** *** Recursive echo *)

Definition Recursive_Echo_a : R := 0.7.
Definition Recursive_Echo_norm : R := 1 - 0.7 * 0.7.

(** What [Recursive_Echo._process] computes on the histories, for a delay
    [N] within the capacity: [y.get(N)] is entry [N] of the outputs before
    the current one. *)
Definition Recursive_Echo_step (N : nat) (hx hy : list R) : R :=
  Recursive_Echo_norm * (back hx 0 + Recursive_Echo_a * back hy N).

(** The impulse: [1] followed by [len] zeros. *)
Definition impulse (len : nat) : list R := 1 :: replicate len 0.

(** The impulse-response property as the specification words it: the
    outputs at [N], [2N] and [3N] are nonzero and each is [a] times the one
    a period before. *)
Definition echoes_decay_by_a (rate channels : Z) (len : nat) : Prop :=
  ∃ ys, run ERecursive_Echo rate channels (impulse len) = Some ys ∧
        let N := Z.to_nat (int_frac 3 10 rate) in
        nth N ys 0 ≠ 0 ∧ nth (2 * N) ys 0 ≠ 0 ∧ nth (3 * N) ys 0 ≠ 0 ∧
        nth N ys 0 = Recursive_Echo_a * nth 0 ys 0 ∧
        nth (2 * N) ys 0 = Recursive_Echo_a * nth N ys 0 ∧
        nth (3 * N) ys 0 = Recursive_Echo_a * nth (2 * N) ys 0.

(** *** Oscillator effects *)

Definition Tremolo_phi (rate : Z) : R := 5 * 2 * PI / IZR rate.
Definition Wah_phi (rate : Z) : R := 3.0 * 2.0 * PI / IZR rate.

(** The pole deviation [d] of [Wah] at oscillator phase [omega]. *)
Definition Wah_deviation (omega : R) : R := 0.3 * PI * (1.0 + cos omega) / 2.0.

(** *** Recurrences of the remaining classes *)

(** [l[n-k]], and 0 when [n - k] is before the first sample. *)
Definition delayed (l : list R) (n k : nat) : R :=
  if (k <=? n)%nat then nth (n - k) l 0 else 0.

(** What each [_process] computes on the histories when its delays lie
    within the capacity; [hx] starts with the current sample, [hy] with the
    previous output. *)
Definition Delta_step (hx hy : list R) : R := back hx 0.

Definition Echo_step (N : nat) (hx hy : list R) : R :=
  1.0 / (1 + 0.7 + 0.5)
  * (1 * back hx 0 + 0.7 * back hx N + 0.5 * back hx (2 * N)).

Definition Natural_Echo_step (N : nat) (hx hy : list R) : R :=
  back hx 0 - 0.7 * back hx 1 + 0.7 * back hy 1 + 0.8 * (1 - 0.7) * back hy N.

Definition Reverb_step (N : nat) (hx hy : list R) : R :=
  0.5 * (- back hx 0 + back hx N + 0.8 * back hy N).

(** The clamp of [Fuzz] as a function of the current sample alone. *)
Definition Fuzz_limit : R := 2147483647 * 0.005.
Definition Fuzz_curve (s : R) : R := 5 * Rmax (- Fuzz_limit) (Rmin Fuzz_limit s).

(** The coefficients [Wah] sets while it processes the sample of index [n]. *)
Definition Wah_b1 (rate : Z) (n : nat) : R :=
  -2.0 * 0.9 * cos (0.06 * PI + Wah_deviation (INR n * Wah_phi rate)).
Definition Wah_a1 (rate : Z) (n : nat) : R :=
  -2.0 * 0.99 * cos (0.04 * PI + Wah_deviation (INR n * Wah_phi rate)).

(** The gain [Tremolo] applies to the sample of index [n]. *)
Definition Tremolo_gain (rate : Z) (n : nat) : R :=
  (1 - 0.9) + 0.9 * 0.5 * (1 + cos (INR (n + 1) * Tremolo_phi rate)).

(** A recurrence whose step also depends on the index of the sample. *)
Fixpoint difference_equation_from (step : nat → list R → list R → R)
    (n : nat) (hx hy : list R) (xs : list R) : list R :=
  match xs with
  | [] => []
  | s :: rest =>
      let out := step n (s :: hx) hy in
      out :: difference_equation_from step (S n) (s :: hx) (out :: hy) rest
  end.

Definition Wah_step (rate : Z) (n : nat) (hx hy : list R) : R :=
  0.3 * (back hx 0 + Wah_b1 rate n * back hx 1 + 0.9 * 0.9 * back hx 2
         - Wah_a1 rate n * back hy 1 - 0.99 * 0.99 * back hy 2).

(** ** The audio callback (demo.py, [main.callback]) *)

(** The reals whose truncation towards zero is an int32. *)
Definition int32_castable (r : R) : Prop := -2147483649 < r < 2147483648.

Definition is_int32 (a : Z) : Prop := (-2147483648 ≤ a ≤ 2147483647)%Z.

Section Callback.

(** What the platform's conversion from float64 to int32 yields for a
    value outside the int32 range; numpy does not fix it. *)
Variable cast_out_of_range : R → Z.

(** [np.int32(r)] for a float [r]: truncation towards zero. *)
Definition np_int32 (r : R) : Z :=
  if Rlt_dec (-2147483649) r then
    if Rlt_dec r 2147483648 then
      if Rle_dec 0 r then Int_part r else (- Int_part (- r))%Z
    else cast_out_of_range r
  else cast_out_of_range r.

(** [callback(in_data, ...)] on the decoded int32 block: every sample goes
    through [process] of the processor in the slot, in order, and the
    result is converted back to int32 in place. The slot is read once for
    the block. *)
Fixpoint callback (p : RTProcessor.t) (audio_data : list Z)
  : option (list Z * RTProcessor.t) :=
  match audio_data with
  | [] => Some ([], p)
  | a :: rest =>
      '(out, q) ← process p (IZR a);
      '(outs, r) ← callback q rest;
      Some (np_int32 out :: outs, r)
  end.

End Callback.

(** ** Polling the keyboard (demo.py, [poll_keyboard] and the loop of [main]) *)

Local Open Scope Z_scope.

(** The module binds [WINDOWS] (to [True]) only when [os.name == 'nt'];
    elsewhere the name stays unbound. *)
Definition WINDOWS (os_name : string) : option bool :=
  if String.eqb os_name "nt" then Some true else None.

(** What [poll_keyboard] hands back: a key code on the [msvcrt] branch,
    the first list of [select.select] on the other. *)
Inductive polled_key : Type :=
| KeyCode (k : Z)
| ReadyList.

(** [poll_keyboard()]; [pending] is the key waiting in the console, if
    [msvcrt.kbhit()] sees one. [None] is the [NameError] of reading an
    unbound global. *)
Definition poll_keyboard (os_name : string) (pending : option ascii)
  : option polled_key :=
  match WINDOWS os_name with
  | None => None
  | Some true =>
      Some (KeyCode (match pending with Some c => ord c | None => 0 end))
  | Some false => Some ReadyList
  end.

(** One whole iteration of the [while] loop: the poll, then what
    [control_step] does with the key. Subtracting [ord('0')] from a list
    is a [TypeError], which nothing catches. *)
Definition loop_iteration (os_name : string) (pending : option ascii)
    (s : session) : outcome :=
  match poll_keyboard os_name pending with
  | None => Crash
  | Some (KeyCode k) => control_step s k
  | Some ReadyList => Crash
  end.

Local Open Scope R_scope.

(** ** Recursive_Echo in binary64

    The classes above compute over the reals. [Binary64] repeats
    [CircularBuffer], [RTProcessor.process] and [Recursive_Echo] over IEEE
    binary64, the arithmetic of Python's [float] and of the [np.zeros]
    arrays, with every operation rounded as the code rounds it. *)

Set Warnings "-inexact-float".

Module Binary64.

Local Open Scope Z_scope.

(** [float(z)] as Python converts an integer operand: the nearest binary64,
    and an [OverflowError] beyond the largest one. *)
Definition float_of_int (z : Z) : option float :=
  let f := SF2Prim (binary_normalize prec emax z 0 false) in
  if PrimFloat.is_infinity f then None else Some f.

(** [int(f)]: truncation towards zero; infinities and NaN raise. *)
Definition int_of_float (f : float) : option Z :=
  match Prim2SF f with
  | S754_zero _ => Some 0
  | S754_finite s m e =>
      let magnitude :=
        if 0 <=? e then Z.shiftl (Zpos m) e else Z.shiftr (Zpos m) (- e) in
      Some (if s then - magnitude else magnitude)
  | S754_infinity _ | S754_nan => None
  end.

Record CircularBuffer : Type := mkCircularBuffer {
  length_ : Z;
  buf : list float;
  ix : Z
}.

Definition np_index (l : list float) (i : Z) : option nat :=
  let n := Z.of_nat (length l) in
  if (0 <=? i) && (i <? n) then Some (Z.to_nat i)
  else if (- n <=? i) && (i <? 0) then Some (Z.to_nat (i + n))
  else None.

Definition init (length : Z) : option CircularBuffer :=
  let len := length + 1 in
  if len <? 0 then None
  else Some (mkCircularBuffer len (replicate (Z.to_nat len) 0%float) (len - 1)).

Definition push (self : CircularBuffer) (x : float) : option CircularBuffer :=
  let ix' := np_mod (ix self + 1) (length_ self) in
  match np_index (buf self) ix' with
  | Some i => Some (mkCircularBuffer (length_ self) (<[i:=x]> (buf self)) ix')
  | None => None
  end.

Definition get (self : CircularBuffer) (n : Z) : option float :=
  match np_index (buf self) (np_mod (ix self + length_ self - n) (length_ self)) with
  | Some i => buf self !! i
  | None => None
  end.

(** A [Recursive_Echo] object. *)
Record Recursive_Echo_t : Type := mkRecursive_Echo {
  SF : Z;
  x : CircularBuffer;
  y : CircularBuffer;
  a : float;
  norm : float;
  N : Z
}.

(** [Recursive_Echo(rate, channels)] *)
Definition Recursive_Echo (rate channels : Z) : option Recursive_Echo_t :=
  bx ← init rate;
  by_ ← init rate;
  let a := 0.7%float in
  let norm := (1 - a * a)%float in
  sf ← float_of_int rate;
  n ← int_of_float (0.3 * sf)%float;
  Some (mkRecursive_Echo rate bx by_ a norm n).

Definition _process (p : Recursive_Echo_t) : option float :=
  x0 ← get (x p) 0;
  yN ← get (y p) (N p);
  Some (norm p * (x0 + a p * yN))%float.

Definition process (p : Recursive_Echo_t) (sample : float)
  : option (float * Recursive_Echo_t) :=
  bx ← push (x p) sample;
  out ← _process (mkRecursive_Echo (SF p) bx (y p) (a p) (norm p) (N p));
  by_ ← push (y p) out;
  Some (out, mkRecursive_Echo (SF p) bx by_ (a p) (norm p) (N p)).

Fixpoint process_all (p : Recursive_Echo_t) (samples : list float)
  : option (list float * Recursive_Echo_t) :=
  match samples with
  | [] => Some ([], p)
  | s :: rest =>
      '(out, q) ← process p s;
      '(outs, r) ← process_all q rest;
      Some (out :: outs, r)
  end.

(** The impulse: [1] followed by [len] zeros. *)
Definition impulse (len : nat) : list float := 1%float :: replicate len 0%float.

(** How a test compares floats: not equal to zero, and equal up to a
    relative error of [1e-15]. *)
Definition nonzero (v : float) : bool := negb (v =? 0)%float.

Definition within_tolerance (v w : float) : bool :=
  (abs (v - w) <=? 1e-15 * abs w)%float.

(** *** Vocabulary of the statements *)

Definition buffer_ok (b : CircularBuffer) : Prop :=
  0 < length_ b ∧ Z.of_nat (length (buf b)) = length_ b ∧ 0 ≤ ix b < length_ b.

(** [b] holds the history [h], most recent value first, zeros before the
    first push. *)
Definition holds (b : CircularBuffer) (h : list float) : Prop :=
  buffer_ok b ∧
  ∀ k, 0 ≤ k < length_ b → get b k = Some (nth (Z.to_nat k) h 0%float).

(** What [_process] computes from the current sample and the entry it
    reads in [y]. *)
Definition feedback (x0 yN : float) : float :=
  ((1 - 0.7 * 0.7) * (x0 + 0.7 * yN))%float.

(** The [k]-th echo of the impulse response, computed as the code
    computes it. *)
Fixpoint echo (k : nat) : float :=
  match k with
  | O => feedback 1 0
  | S k' => feedback 0 (echo k')
  end.

Fixpoint difference_equation (step : list float → list float → float)
    (hx hy : list float) (xs : list float) : list float :=
  match xs with
  | [] => []
  | s :: rest =>
      let out := step (s :: hx) hy in
      out :: difference_equation step (s :: hx) (out :: hy) rest
  end.

Definition step (n : nat) (hx hy : list float) : float :=
  feedback (nth 0 hx 0%float) (nth n hy 0%float).

(** Whether, at each of the [count] rates from [rate] on, the delay the
    constructor computes in binary64 is the truncation of the exact
    product [0.3 * rate]. *)
Fixpoint delays_agree (rate : Z) (count : nat) : bool :=
  match count with
  | O => true
  | S c =>
      match sf ← float_of_int rate; int_of_float (0.3 * sf)%float with
      | Some n => n =? int_frac 3 10 rate
      | None => false
      end && delays_agree (rate + 1) c
  end.

End Binary64.

Local Open Scope R_scope.

(** * Verification *)

(** ** Circular buffers as bounded histories *)

Section Buffer.

Local Open Scope Z_scope.

Lemma np_mod_pos a c : 0 < c → np_mod a c = a mod c.
Proof.
  intros Hc. unfold np_mod. destruct (Z.eqb_spec c 0); [lia | reflexivity].
Qed.

Lemma np_index_in (l : list R) i :
  0 ≤ i < Z.of_nat (length l) → np_index l i = Some (Z.to_nat i).
Proof.
  intros [H0 H1]. unfold np_index.
  destruct (Z.leb_spec 0 i); [| lia].
  destruct (Z.ltb_spec i (Z.of_nat (length l))); [reflexivity | lia].
Qed.

Lemma get_ok b n :
  buffer_ok b →
  CircularBuffer.get b n
  = buf b !! Z.to_nat ((ix b + length_ b - n) mod length_ b).
Proof.
  intros (Hc & Hl & Hi). unfold CircularBuffer.get.
  rewrite np_mod_pos by assumption.
  rewrite np_index_in; [reflexivity |].
  rewrite Hl. apply Z.mod_pos_bound. assumption.
Qed.

Lemma get_total b n : buffer_ok b → ∃ v, CircularBuffer.get b n = Some v.
Proof.
  intros Hb. rewrite get_ok by assumption.
  destruct Hb as (Hc & Hl & Hi).
  apply lookup_lt_is_Some_2.
  pose proof (Z.mod_pos_bound (ix b + length_ b - n) (length_ b) Hc). lia.
Qed.

Lemma get_wraps b n :
  buffer_ok b → CircularBuffer.get b n = CircularBuffer.get b (n mod length_ b).
Proof.
  intros Hb. rewrite !get_ok by assumption.
  now rewrite Zminus_mod_idemp_r.
Qed.

Lemma push_ok b v :
  buffer_ok b →
  CircularBuffer.push b v
  = Some (mkCircularBuffer (length_ b)
            (<[Z.to_nat ((ix b + 1) mod length_ b) := v]> (buf b))
            ((ix b + 1) mod length_ b)).
Proof.
  intros (Hc & Hl & Hi). unfold CircularBuffer.push.
  rewrite np_mod_pos by assumption.
  rewrite np_index_in; [reflexivity |].
  rewrite Hl. apply Z.mod_pos_bound. assumption.
Qed.

Lemma push_buffer_ok b v b' :
  buffer_ok b → CircularBuffer.push b v = Some b' →
  buffer_ok b' ∧ length_ b' = length_ b.
Proof.
  intros Hb. rewrite push_ok by assumption. intros [= <-].
  destruct Hb as (Hc & Hl & Hi). unfold buffer_ok. simpl.
  rewrite length_insert.
  pose proof (Z.mod_pos_bound (ix b + 1) (length_ b) Hc). lia.
Qed.

Lemma push_total b v :
  buffer_ok b →
  ∃ b', CircularBuffer.push b v = Some b' ∧ buffer_ok b' ∧
        length_ b' = length_ b.
Proof.
  intros Hb. eexists. split; [apply push_ok; exact Hb |].
  apply (push_buffer_ok b v). exact Hb. apply push_ok. exact Hb.
Qed.

Lemma mod_once a c : 0 ≤ a < 2 * c → a mod c = if a <? c then a else a - c.
Proof.
  intros Ha. destruct (Z.ltb_spec a c).
  - apply Z.mod_small. lia.
  - symmetry. apply (Z.mod_unique a c 1); lia.
Qed.

Lemma init_holds max_delay :
  0 ≤ max_delay →
  ∃ b, CircularBuffer.init max_delay = Some b ∧ holds b [] ∧
       length_ b = max_delay + 1.
Proof.
  intros Hd. unfold CircularBuffer.init.
  destruct (Z.ltb_spec (max_delay + 1) 0); [lia |].
  eexists. split; [reflexivity |].
  assert (Hok : buffer_ok
            (mkCircularBuffer (max_delay + 1)
               (replicate (Z.to_nat (max_delay + 1)) 0%R) (max_delay + 1 - 1))).
  { unfold buffer_ok. simpl. rewrite length_replicate. lia. }
  split; [| reflexivity]. split; [exact Hok |].
  intros k Hk. rewrite get_ok by exact Hok. simpl in *.
  rewrite lookup_replicate_2.
  - now destruct (Z.to_nat k).
  - pose proof (Z.mod_pos_bound (max_delay + 1 - 1 + (max_delay + 1) - k)
                  (max_delay + 1)). lia.
Qed.

Lemma push_holds b h v :
  holds b h →
  ∃ b', CircularBuffer.push b v = Some b' ∧ holds b' (v :: h) ∧
        length_ b' = length_ b.
Proof.
  intros [Hb Hget].
  destruct (push_buffer_ok b v _ Hb (push_ok b v Hb)) as [Hb' Hlen].
  eexists. split; [apply push_ok; exact Hb |].
  split; [| reflexivity]. split; [exact Hb' |].
  intros k Hk. rewrite get_ok by exact Hb'. simpl in *.
  destruct Hb as (Hc & Hl & Hi).
  set (c := length_ b) in *.
  assert (Hix : (ix b + 1) mod c = if ix b + 1 <? c then ix b + 1 else ix b + 1 - c)
    by (apply mod_once; lia).
  destruct (Z.eq_dec k 0) as [-> | Hk0].
  - replace ((ix b + 1) mod c + c - 0) with ((ix b + 1) mod c + 1 * c) by lia.
    rewrite Z.mod_add by lia. rewrite Z.mod_mod by lia.
    rewrite list_lookup_insert_eq; [reflexivity |].
    pose proof (Z.mod_pos_bound (ix b + 1) c Hc). lia.
  - replace (Z.to_nat k) with (S (Z.to_nat (k - 1))) by lia. simpl.
    rewrite <- (Hget (k - 1)) by lia.
    rewrite get_ok by (unfold buffer_ok; fold c; lia). fold c.
    assert (Hsame : ((ix b + 1) mod c + c - k) mod c = (ix b + c - (k - 1)) mod c).
    { rewrite Hix. rewrite !mod_once by (destruct (ix b + 1 <? c) eqn:E; lia).
      destruct (Z.ltb_spec (ix b + 1) c);
        repeat match goal with |- context [?a <? ?b] => destruct (Z.ltb_spec a b) end;
        lia. }
    rewrite Hsame. apply list_lookup_insert_ne.
    rewrite Hix. rewrite mod_once by lia.
    destruct (Z.ltb_spec (ix b + 1) c);
      destruct (Z.ltb_spec (ix b + c - (k - 1)) c); lia.
Qed.

End Buffer.

Section BufferClaims.

Local Open Scope Z_scope.

Lemma holds_get b h n :
  holds b h →
  CircularBuffer.get b n = Some (nth (Z.to_nat (n mod length_ b)) h 0%R).
Proof.
  intros [Hb Hget]. rewrite get_wraps by exact Hb.
  apply Hget. apply Z.mod_pos_bound. apply Hb.
Qed.

Lemma push_all_holds vs : ∀ b h,
  holds b h →
  ∃ b', push_all b vs = Some b' ∧ holds b' (rev vs ++ h) ∧
        length_ b' = length_ b.
Proof.
  induction vs as [| v vs IH]; intros b h Hb.
  - exists b. auto.
  - destruct (push_holds b h v Hb) as (b1 & Hpush & Hb1 & Hlen1).
    destruct (IH b1 (v :: h) Hb1) as (b2 & Hall & Hb2 & Hlen2).
    exists b2. simpl. rewrite Hpush. simpl. rewrite Hall.
    split; [reflexivity |]. rewrite <- app_assoc. simpl.
    split; [exact Hb2 | congruence].
Qed.

(** C3: a buffer built with [max_delay], after the pushes [v0 .. vk] in
    that order, answers [get(i)] with [v(k-i)] for every
    [0 <= i <= min(k, max_delay)]; [get(0)] is the last value pushed. *)
Theorem get_after_pushes max_delay (vs : list R) (i : nat) :
  0 ≤ max_delay → (i < length vs)%nat → Z.of_nat i ≤ max_delay →
  (b0 ← CircularBuffer.init max_delay;
   b ← push_all b0 vs;
   CircularBuffer.get b (Z.of_nat i))
  = vs !! (length vs - 1 - i)%nat
  ∧ is_Some (vs !! (length vs - 1 - i)%nat).
Proof.
  intros Hd Hi Hmax.
  destruct (init_holds max_delay Hd) as (b0 & Hinit & Hb0 & Hlen0).
  destruct (push_all_holds vs b0 [] Hb0) as (b & Hall & Hb & Hlen).
  rewrite Hinit. simpl. rewrite Hall. simpl.
  rewrite (holds_get b _ _ Hb).
  rewrite Z.mod_small by lia. rewrite Nat2Z.id.
  rewrite app_nil_r.
  assert (Hlt : (length vs - 1 - i < length vs)%nat) by lia.
  destruct (lookup_lt_is_Some_2 vs _ Hlt) as [v Hv].
  split; [| eauto].
  rewrite rev_nth by exact Hi.
  replace (length vs - S i)%nat with (length vs - 1 - i)%nat by lia.
  rewrite Hv. f_equal. rewrite nth_lookup, Hv. reflexivity.
Qed.

Lemma get_after_pushes_witness :
  (b0 ← CircularBuffer.init 2;
   b ← push_all b0 [1; 2; 3; 4; 5]%R;
   CircularBuffer.get b (Z.of_nat 2))
  = [1; 2; 3; 4; 5]%R !! 2%nat
  ∧ is_Some ([1; 2; 3; 4; 5]%R !! 2%nat).
Proof.
  apply (get_after_pushes 2 [1; 2; 3; 4; 5]%R 2); simpl; lia.
Defined.

(** C4: a buffer of capacity [C = max_delay + 1], whatever was pushed
    into it, answers [get(n)] for every integer offset [n] (so for every
    [n >= 0]), and answers it as it answers [get(n mod C)]: an offset out
    of range is wrapped, never refused. *)
Theorem get_aliases_modulo max_delay (vs : list R) (n : Z) :
  0 ≤ max_delay →
  ∃ b, (b0 ← CircularBuffer.init max_delay; push_all b0 vs) = Some b ∧
       length_ b = max_delay + 1 ∧
       is_Some (CircularBuffer.get b n) ∧
       CircularBuffer.get b n = CircularBuffer.get b (n mod (max_delay + 1)).
Proof.
  intros Hd.
  destruct (init_holds max_delay Hd) as (b0 & Hinit & Hb0 & Hlen0).
  destruct (push_all_holds vs b0 [] Hb0) as (b & Hall & [Hb _] & Hlen).
  exists b. rewrite Hinit. simpl. split; [exact Hall |].
  split; [congruence |]. split.
  - destruct (get_total b n Hb) as [v Hv]. eauto.
  - rewrite <- Hlen0, <- Hlen. apply get_wraps. exact Hb.
Qed.

Lemma get_aliases_modulo_witness :
  ∃ b, (b0 ← CircularBuffer.init 2; push_all b0 [1; 2; 3; 4]%R) = Some b ∧
       length_ b = 2 + 1 ∧
       is_Some (CircularBuffer.get b 7) ∧
       CircularBuffer.get b 7 = CircularBuffer.get b (7 mod (2 + 1)).
Proof.
  apply (get_aliases_modulo 2 [1; 2; 3; 4]%R 7). lia.
Defined.

End BufferClaims.

(** ** The push / transform / push sequence *)

Section Process.

Ltac get_all Hx Hy :=
  repeat match goal with
  | |- context [CircularBuffer.get ?b ?n] =>
      let v := fresh "v" in
      let E := fresh "E" in
      first [ destruct (get_total b n Hx) as [v E]
            | destruct (get_total b n Hy) as [v E] ];
      rewrite E; simpl
  end.

(** The transform of every class succeeds on well-shaped histories and
    touches nothing but the object's own attributes. *)
Lemma _process_frame p :
  processor_ok p →
  ∃ out a', _process p = Some (out, RTProcessor.set_self p a').
Proof.
  intros [Hx Hy]. unfold _process.
  destruct p as [sf bx by_ a]. simpl in *.
  destruct a; get_all Hx Hy; eauto.
Qed.

Lemma process_step (p : RTProcessor.t) (s : R) :
  processor_ok p →
  ∃ bx out q by_,
    CircularBuffer.push (RTProcessor.x p) s = Some bx ∧
    _process (RTProcessor.set_x p bx) = Some (out, q) ∧
    RTProcessor.x q = bx ∧ RTProcessor.y q = RTProcessor.y p ∧
    CircularBuffer.push (RTProcessor.y p) out = Some by_ ∧
    process p s = Some (out, RTProcessor.set_y q by_) ∧
    processor_ok (RTProcessor.set_y q by_) ∧
    ∀ hx hy, has_history p hx hy →
             has_history (RTProcessor.set_x p bx) (s :: hx) hy ∧
             has_history (RTProcessor.set_y q by_) (s :: hx) (out :: hy).
Proof.
  intros [Hx Hy].
  destruct (push_total _ s Hx) as (bx & Hpx & Hbx & _).
  destruct (_process_frame (RTProcessor.set_x p bx)) as (out & a' & Hproc).
  { split; [exact Hbx | exact Hy]. }
  destruct (push_total _ out Hy) as (by_ & Hpy & Hby & _).
  exists bx, out, (RTProcessor.set_self (RTProcessor.set_x p bx) a'), by_.
  assert (Hrun : process p s = Some (out, RTProcessor.set_y
            (RTProcessor.set_self (RTProcessor.set_x p bx) a') by_)).
  { unfold process. rewrite Hpx. simpl. rewrite Hproc. simpl.
    rewrite Hpy. reflexivity. }
  split; [exact Hpx |]. split; [exact Hproc |].
  split; [reflexivity |]. split; [reflexivity |].
  split; [exact Hpy |]. split; [exact Hrun |].
  split; [split; assumption |].
  intros hx hy [Hhx Hhy].
  assert (Hbxh : holds bx (s :: hx)).
  { destruct (push_holds _ hx s Hhx) as (b' & Hp' & Hh' & _).
    rewrite Hpx in Hp'. injection Hp' as <-. exact Hh'. }
  split; [split; [exact Hbxh | exact Hhy] |].
  split; simpl.
  - exact Hbxh.
  - destruct (push_holds _ hy out Hhy) as (b' & Hp' & Hh' & _).
    rewrite Hpy in Hp'. injection Hp' as <-. exact Hh'.
Qed.

(** C2: [process(s)] pushes [s] into [x], runs the transform of the class
    on the result, pushes the transform's output into [y] and returns it;
    the transform itself leaves both histories alone, so each history
    receives exactly one value: [x] grows by [s], [y] by the output. *)
Theorem process_sequence (p : RTProcessor.t) (s : R) :
  processor_ok p →
  ∃ bx out q by_,
    CircularBuffer.push (RTProcessor.x p) s = Some bx ∧
    _process (RTProcessor.set_x p bx) = Some (out, q) ∧
    RTProcessor.x q = bx ∧ RTProcessor.y q = RTProcessor.y p ∧
    CircularBuffer.push (RTProcessor.y p) out = Some by_ ∧
    process p s = Some (out, RTProcessor.set_y q by_) ∧
    ∀ hx hy, has_history p hx hy →
             has_history (RTProcessor.set_y q by_) (s :: hx) (out :: hy).
Proof.
  intros Hp.
  destruct (process_step p s Hp)
    as (bx & out & q & by_ & H1 & H2 & H3 & H4 & H5 & H6 & _ & H8).
  exists bx, out, q, by_. repeat (split; [assumption |]).
  intros hx hy Hh. apply (H8 hx hy Hh).
Qed.

Lemma process_sequence_witness :
  let p := RTProcessor.mk 16000 (mkCircularBuffer 2 [0; 0] 1)
             (mkCircularBuffer 2 [0; 0] 1) ABase in
  ∃ bx out q by_,
    CircularBuffer.push (RTProcessor.x p) 1 = Some bx ∧
    _process (RTProcessor.set_x p bx) = Some (out, q) ∧
    RTProcessor.x q = bx ∧ RTProcessor.y q = RTProcessor.y p ∧
    CircularBuffer.push (RTProcessor.y p) out = Some by_ ∧
    process p 1 = Some (out, RTProcessor.set_y q by_) ∧
    ∀ hx hy, has_history p hx hy →
             has_history (RTProcessor.set_y q by_) (1 :: hx) (out :: hy).
Proof.
  intros p. apply (process_sequence p 1).
  unfold processor_ok, buffer_ok. simpl. lia.
Defined.

End Process.

(** ** Freshly constructed processors *)

Section Construction.

Lemma init_has_history rate channels max_delay :
  (0 ≤ max_delay)%Z →
  ∃ p, RTProcessor.init rate channels max_delay = Some p ∧
       has_history p [] [] ∧
       RTProcessor.SF p = rate ∧ RTProcessor.self p = ABase ∧
       length_ (RTProcessor.x p) = (max_delay + 1)%Z ∧
       length_ (RTProcessor.y p) = (max_delay + 1)%Z.
Proof.
  intros Hd. unfold RTProcessor.init.
  destruct (init_holds max_delay Hd) as (b & Hinit & Hb & Hlen).
  rewrite Hinit. simpl. eexists. split; [reflexivity |].
  simpl. repeat split; try apply Hb; assumption.
Qed.

Lemma py_div_nonzero a b : b ≠ 0%Z → py_div a b = Some (a / IZR b).
Proof.
  intros Hb. unfold py_div. destruct (Z.eqb_spec b 0); [contradiction | reflexivity].
Qed.

(** With a positive sample rate every constructor of the catalog
    succeeds, on empty histories. *)
Lemma construct_has_history e rate channels :
  (0 < rate)%Z →
  ∃ p, construct e rate channels = Some p ∧ has_history p [] [] ∧
       limit_nonneg (RTProcessor.self p).
Proof.
  intros Hr.
  destruct e; simpl;
    unfold Delta, Echo, Recursive_Echo, Natural_Echo, Reverb, Biquad, Fuzz,
           Wah, Tremolo;
    match goal with
    | |- context [RTProcessor.init ?r ?c ?d] =>
        destruct (init_has_history r c d ltac:(lia))
          as (p & -> & Hh & Hsf & Hself & _)
    end; simpl;
    rewrite ?Hsf, ?py_div_nonzero by lia; simpl;
    eexists; (split; [reflexivity |]); (split; [exact Hh |]);
    simpl; rewrite ?Hself; simpl; try exact I.
  lra.
Qed.

End Construction.

(** ** Silence in, silence out *)

Section Silence.

Lemma nth_all_zero h k : all_zero h → nth k h 0 = 0.
Proof.
  intros Hz. revert k. induction Hz as [| v h Hv _ IH]; intros [| k]; simpl; auto.
Qed.

Lemma holds_zero b h n :
  holds b h → all_zero h → CircularBuffer.get b n = Some 0.
Proof.
  intros Hb Hz. rewrite (holds_get b h n Hb). f_equal. now apply nth_all_zero.
Qed.

Lemma silent_step p hx hy :
  has_history p hx hy → all_zero hx → all_zero hy →
  limit_nonneg (RTProcessor.self p) →
  ∃ q, process p 0 = Some (0, q) ∧ has_history q (0 :: hx) (0 :: hy) ∧
       limit_nonneg (RTProcessor.self q).
Proof.
  intros Hh Hzx Hzy Hlim.
  assert (Hok : processor_ok p) by (split; apply Hh).
  destruct (process_step p 0 Hok)
    as (bx & out & q & by_ & _ & Hproc & _ & _ & _ & Hrun & _ & Hhist).
  destruct (Hhist hx hy Hh) as [[Hbx Hby] Hq].
  assert (Hzx' : all_zero (0 :: hx)) by (constructor; auto).
  unfold _process in Hproc.
  destruct p as [sf px py a]. simpl in *.
  assert (Hout : out = 0 ∧ limit_nonneg (RTProcessor.self q)).
  { destruct a; simpl in Hproc;
      rewrite ?(holds_zero _ _ _ Hbx Hzx'), ?(holds_zero _ _ _ Hby Hzy) in Hproc;
      simpl in Hproc; injection Hproc as <- <-; simpl;
      (split; [| auto]); try lra.
    simpl in Hlim. destruct (Rlt_dec limit 0); [lra |].
    destruct (Rlt_dec 0 (- limit)); lra. }
  destruct Hout as [-> Hlim'].
  eexists. split; [exact Hrun |]. split; [exact Hq | exact Hlim'].
Qed.

Lemma silent_run n : ∀ p hx hy,
  has_history p hx hy → all_zero hx → all_zero hy →
  limit_nonneg (RTProcessor.self p) →
  ∃ q, process_all p (replicate n 0) = Some (replicate n 0, q).
Proof.
  induction n as [| n IH]; intros p hx hy Hh Hzx Hzy Hlim; simpl.
  - eauto.
  - destruct (silent_step p hx hy Hh Hzx Hzy Hlim) as (q & -> & Hq & Hlq).
    simpl.
    assert (Hzx' : all_zero (0 :: hx)) by (constructor; auto).
    assert (Hzy' : all_zero (0 :: hy)) by (constructor; auto).
    destruct (IH q (0 :: hx) (0 :: hy) Hq Hzx' Hzy' Hlq) as (r & ->).
    simpl. eauto.
Qed.

(** C5: every effect of the catalog, freshly constructed (at a positive
    sample rate), turns an all-zero input of any length into the all-zero
    output of that length. *)
Theorem silence_in_silence_out (e : effect) (rate channels : Z) (n : nat) :
  (0 < rate)%Z →
  run e rate channels (replicate n 0) = Some (replicate n 0).
Proof.
  intros Hr. unfold run.
  destruct (construct_has_history e rate channels Hr) as (p & -> & Hh & Hlim).
  simpl.
  destruct (silent_run n p [] [] Hh) as (q & ->);
    [constructor | constructor | exact Hlim |].
  reflexivity.
Qed.

Lemma silence_in_silence_out_witness :
  run EWah 16000 1 (replicate 4 0) = Some (replicate 4 0).
Proof.
  apply (silence_in_silence_out EWah 16000 1 4). lia.
Defined.

End Silence.

(** ** Whole runs *)

Section Runs.

Lemma process_all_history xs : ∀ p hx hy,
  has_history p hx hy →
  ∃ ys q, process_all p xs = Some (ys, q) ∧
          has_history q (rev xs ++ hx) (rev ys ++ hy) ∧
          length ys = length xs.
Proof.
  induction xs as [| s xs IH]; intros p hx hy Hh; simpl.
  - exists [], p. auto.
  - assert (Hok : processor_ok p) by (split; apply Hh).
    destruct (process_step p s Hok)
      as (bx & out & q & by_ & _ & _ & _ & _ & _ & Hrun & _ & Hhist).
    destruct (Hhist hx hy Hh) as [_ Hq].
    destruct (IH _ _ _ Hq) as (ys & r & Hall & Hr & Hlen).
    exists (out :: ys), r. rewrite Hrun. simpl. rewrite Hall. simpl.
    split; [reflexivity |]. rewrite <- !app_assoc. simpl.
    split; [exact Hr | congruence].
Qed.

Lemma _process_static p out q :
  time_varying (RTProcessor.self p) = false →
  _process p = Some (out, q) → q = p.
Proof.
  unfold _process. intros Hs Hp.
  destruct (RTProcessor.self p); try discriminate Hs;
    repeat match type of Hp with
    | context [CircularBuffer.get ?b ?n] =>
        destruct (CircularBuffer.get b n); simpl in Hp; try discriminate Hp
    end;
    congruence.
Qed.

Lemma process_static p s out q :
  time_varying (RTProcessor.self p) = false →
  process p s = Some (out, q) →
  RTProcessor.self q = RTProcessor.self p ∧ RTProcessor.SF q = RTProcessor.SF p.
Proof.
  unfold process. intros Hs Hp.
  destruct (CircularBuffer.push (RTProcessor.x p) s) as [bx |];
    simpl in Hp; [| discriminate].
  destruct (_process (RTProcessor.set_x p bx)) as [[o r] |] eqn:E;
    simpl in Hp; [| discriminate].
  apply _process_static in E; [| exact Hs]. subst r.
  destruct (CircularBuffer.push _ o); simpl in Hp; [| discriminate].
  injection Hp as <- <-. auto.
Qed.

Lemma process_all_static xs : ∀ p ys q,
  time_varying (RTProcessor.self p) = false →
  process_all p xs = Some (ys, q) →
  RTProcessor.self q = RTProcessor.self p.
Proof.
  induction xs as [| s xs IH]; intros p ys q Hs Hp; simpl in Hp.
  - congruence.
  - destruct (process p s) as [[o r] |] eqn:E; simpl in Hp; [| discriminate].
    destruct (process_static _ _ _ _ Hs E) as [Hself _].
    destruct (process_all r xs) as [[os t] |] eqn:E'; simpl in Hp; [| discriminate].
    injection Hp as <- <-.
    rewrite <- Hself. apply (IH r os t); [rewrite Hself; exact Hs | exact E'].
Qed.

End Runs.

(** ** Fuzz *)

Section FuzzClamp.

Lemma Fuzz_constructed rate channels :
  ∃ p, Fuzz rate channels = Some p ∧ has_history p [] [] ∧
       RTProcessor.self p = AFuzz 0.005 5 (2147483647 * 0.005).
Proof.
  unfold Fuzz.
  destruct (init_has_history rate channels 1 ltac:(lia))
    as (p & -> & Hh & _ & _ & _).
  simpl. eexists. split; [reflexivity |]. split; [exact Hh | reflexivity].
Qed.

Lemma Fuzz_process p hx hy T G limit s :
  has_history p hx hy → RTProcessor.self p = AFuzz T G limit →
  ∃ q, process p s
       = Some (G * (let y1 := if Rlt_dec limit s then limit else s in
                    if Rlt_dec y1 (- limit) then - limit else y1), q).
Proof.
  intros Hh Hself.
  assert (Hok : processor_ok p) by (split; apply Hh).
  destruct (process_step p s Hok)
    as (bx & out & q & by_ & _ & Hproc & _ & _ & _ & Hrun & _ & Hhist).
  destruct (Hhist hx hy Hh) as [[[Hbx Hgx] _] _].
  unfold _process in Hproc. simpl in Hproc, Hgx, Hbx. rewrite Hself in Hproc.
  rewrite (Hgx 0%Z) in Hproc by (destruct Hbx; simpl in *; lia).
  simpl in Hproc. injection Hproc as <- _.
  eexists. exact Hrun.
Qed.

(** C6: whatever a [Fuzz] processor has processed before, [process(x)]
    returns [G*x] when [|x| <= limit], [G*limit] when [x > limit] and
    [-G*limit] when [x < -limit], with [limit = INT32_MAX * 0.005] and
    [G = 5]; at [x = limit] and [x = -limit] it is the first case. *)
Theorem Fuzz_clamps (rate channels : Z) (xs : list R) (x : R) :
  let limit := 2147483647 * 0.005 in
  let G := 5 in
  ∃ p0 ys p out p',
    Fuzz rate channels = Some p0 ∧
    process_all p0 xs = Some (ys, p) ∧
    process p x = Some (out, p') ∧
    (Rabs x <= limit → out = G * x) ∧
    (x > limit → out = G * limit) ∧
    (x < - limit → out = - G * limit).
Proof.
  intros limit G.
  destruct (Fuzz_constructed rate channels) as (p0 & Hc & Hh0 & Hself0).
  destruct (process_all_history xs p0 [] [] Hh0) as (ys & p & Hall & Hh & _).
  assert (Hself : RTProcessor.self p = AFuzz 0.005 5 (2147483647 * 0.005)).
  { rewrite <- Hself0. apply (process_all_static xs p0 ys p); [| exact Hall].
    rewrite Hself0. reflexivity. }
  destruct (Fuzz_process p _ _ _ _ _ x Hh Hself) as (p' & Hrun).
  exists p0, ys, p. eexists. exists p'.
  split; [exact Hc |]. split; [exact Hall |]. split; [exact Hrun |].
  fold limit. fold G. simpl.
  assert (Hpos : 0 < limit) by (unfold limit; lra).
  split; [| split].
  - intros Habs.
    assert (- limit <= x <= limit)
      by (unfold Rabs in Habs; destruct (Rcase_abs x); lra).
    destruct (Rlt_dec limit x); [lra |].
    destruct (Rlt_dec x (- limit)); [lra | reflexivity].
  - intros Hgt.
    destruct (Rlt_dec limit x); [| lra].
    destruct (Rlt_dec limit (- limit)); [lra | reflexivity].
  - intros Hlt.
    destruct (Rlt_dec limit x); [lra |].
    destruct (Rlt_dec x (- limit)); [| lra]. unfold G. lra.
Qed.

Lemma Fuzz_clamps_witness :
  ∃ out, (p0 ← Fuzz 16000 1; process p0 (2147483647 * 0.005)) ≫= (λ r, Some (fst r))
         = Some out ∧ out = 5 * (2147483647 * 0.005).
Proof.
  destruct (Fuzz_clamps 16000 1 [] (2147483647 * 0.005))
    as (p0 & ys & p & out & p' & Hc & Hall & Hrun & Hin & _ & _).
  exists out. simpl in Hall. injection Hall as _ <-.
  rewrite Hc. simpl. rewrite Hrun. simpl. split; [reflexivity |].
  apply Hin. rewrite Rabs_right; lra.
Defined.

End FuzzClamp.

(** ** Static classes as recurrences *)

Section Recurrences.

Lemma push_length b v b' :
  CircularBuffer.push b v = Some b' → length_ b' = length_ b.
Proof.
  unfold CircularBuffer.push. destruct (np_index _ _); [| discriminate].
  intros [= <-]. reflexivity.
Qed.

Lemma process_lengths p s out q :
  processor_ok p → process p s = Some (out, q) →
  length_ (RTProcessor.x q) = length_ (RTProcessor.x p) ∧
  length_ (RTProcessor.y q) = length_ (RTProcessor.y p).
Proof.
  intros Hok Hp.
  destruct (process_step p s Hok)
    as (bx & o & r & by_ & Hpx & _ & Hx & Hy & Hpy & Hrun & _).
  rewrite Hrun in Hp. injection Hp as <- <-. simpl.
  rewrite Hx. split; eapply push_length; eassumption.
Qed.

(** A class that keeps its attributes and computes [step] on the
    histories produces the recurrence of [step]. *)
Lemma static_run (step : list R → list R → R) (a : attrs) (cx cy : Z) :
  time_varying a = false →
  (∀ p hx hy s,
      has_history p hx hy → RTProcessor.self p = a →
      length_ (RTProcessor.x p) = cx → length_ (RTProcessor.y p) = cy →
      ∃ q, process p s = Some (step (s :: hx) hy, q)) →
  ∀ xs p hx hy,
    has_history p hx hy → RTProcessor.self p = a →
    length_ (RTProcessor.x p) = cx → length_ (RTProcessor.y p) = cy →
    ∃ q, process_all p xs = Some (difference_equation step hx hy xs, q).
Proof.
  intros Hstatic Hstep.
  induction xs as [| s xs IH]; intros p hx hy Hh Hself Hcx Hcy; simpl.
  - eauto.
  - destruct (Hstep p hx hy s Hh Hself Hcx Hcy) as (q & Hrun).
    assert (Hok : processor_ok p) by (split; apply Hh).
    destruct (process_step p s Hok)
      as (bx & out & q' & by_ & _ & _ & _ & _ & _ & Hrun' & _ & Hhist).
    destruct (Hhist hx hy Hh) as [_ Hq].
    rewrite Hrun' in Hrun. injection Hrun as -> <-.
    destruct (process_static p s _ _ ltac:(rewrite Hself; exact Hstatic) Hrun')
      as [Hself' _].
    destruct (process_lengths p s _ _ Hok Hrun') as [Hlx Hly].
    rewrite Hrun'. simpl.
    destruct (IH _ (s :: hx) (step (s :: hx) hy :: hy) Hq) as (r & ->);
      [congruence | congruence | congruence |].
    simpl. eauto.
Qed.

End Recurrences.

(** ** Biquad *)

Section BiquadFilter.

Lemma Biquad_constructed rate channels :
  ∃ p, Biquad rate channels = Some p ∧ has_history p [] [] ∧
       RTProcessor.self p
       = ABiquad Biquad_b1 Biquad_b2 Biquad_a1 Biquad_a2 Biquad_norm ∧
       length_ (RTProcessor.x p) = 3%Z ∧ length_ (RTProcessor.y p) = 3%Z.
Proof.
  unfold Biquad.
  destruct (init_has_history rate channels 2 ltac:(lia))
    as (p & -> & Hh & _ & _ & Hlx & Hly).
  simpl. eexists. split; [reflexivity |]. split; [exact Hh |].
  split; [reflexivity |]. simpl. auto.
Qed.

Lemma Biquad_process p hx hy s :
  has_history p hx hy →
  RTProcessor.self p
  = ABiquad Biquad_b1 Biquad_b2 Biquad_a1 Biquad_a2 Biquad_norm →
  length_ (RTProcessor.x p) = 3%Z → length_ (RTProcessor.y p) = 3%Z →
  ∃ q, process p s = Some (Biquad_code_step (s :: hx) hy, q).
Proof.
  intros Hh Hself Hlx Hly.
  assert (Hok : processor_ok p) by (split; apply Hh).
  destruct (process_step p s Hok)
    as (bx & out & q & by_ & Hpx & Hproc & _ & _ & _ & Hrun & _ & Hhist).
  destruct (Hhist hx hy Hh) as [[[Hbx Hgx] [Hby Hgy]] _].
  apply push_length in Hpx.
  unfold _process in Hproc. simpl in Hproc, Hgx, Hgy. rewrite Hself in Hproc.
  rewrite !Hgx, !Hgy in Hproc by lia.
  simpl in Hproc. injection Hproc as <- _.
  eexists. exact Hrun.
Qed.

(** What the class computes, on every input sequence. *)
Lemma Biquad_run rate channels xs :
  run EBiquad rate channels xs
  = Some (difference_equation Biquad_code_step [] [] xs).
Proof.
  unfold run, construct.
  destruct (Biquad_constructed rate channels)
    as (p & -> & Hh & Hself & Hlx & Hly).
  simpl.
  destruct (static_run Biquad_code_step
              (ABiquad Biquad_b1 Biquad_b2 Biquad_a1 Biquad_a2 Biquad_norm)
              3 3 eq_refl Biquad_process xs p [] [] Hh Hself Hlx Hly)
    as (q & ->).
  reflexivity.
Qed.

Lemma Biquad_a1_nonzero : Biquad_a1 ≠ 0.
Proof.
  unfold Biquad_a1.
  assert (0 < cos (0.1 * PI)).
  { pose proof PI_RGT_0. apply cos_gt_0; lra. }
  nra.
Qed.

(** C1 (fails on the code): on the impulse [1, 0], from any rate and
    channel count, the class returns [0.1] and then [0.1 * b1]; the
    difference equation of the specification gives [0.1] and then
    [0.1 * (b1 - a1 * 0.1)]: the code reads [y[n-2]] where the equation
    has [y[n-1]]. *)
Theorem Biquad_misses_difference_equation (rate channels : Z) :
  run EBiquad rate channels [1; 0] = Some [0.1; 0.1 * Biquad_b1] ∧
  Biquad_spec [1; 0] = [0.1; 0.1 * (Biquad_b1 - Biquad_a1 * 0.1)] ∧
  run EBiquad rate channels [1; 0] ≠ Some (Biquad_spec [1; 0]).
Proof.
  assert (Hcode : run EBiquad rate channels [1; 0] = Some [0.1; 0.1 * Biquad_b1]).
  { rewrite Biquad_run. simpl. unfold Biquad_code_step, back, Biquad_norm. simpl.
    f_equal. f_equal; [lra |]. f_equal. lra. }
  assert (Hspec : Biquad_spec [1; 0] = [0.1; 0.1 * (Biquad_b1 - Biquad_a1 * 0.1)]).
  { unfold Biquad_spec. simpl. unfold Biquad_spec_step, back, Biquad_norm. simpl.
    f_equal; [lra |]. f_equal. lra. }
  split; [exact Hcode |]. split; [exact Hspec |].
  rewrite Hcode, Hspec. intros [= Heq].
  pose proof Biquad_a1_nonzero. lra.
Qed.

End BiquadFilter.

(** ** Recursive echo: impulse response *)

Section RecursiveEcho.

Lemma int_frac_bounds rate :
  (0 < rate)%Z → (0 ≤ int_frac 3 10 rate ≤ rate)%Z.
Proof.
  intros Hr. unfold int_frac. rewrite Z.quot_div_nonneg by lia.
  split.
  - apply Z.div_pos; lia.
  - apply Z.div_le_upper_bound; lia.
Qed.

Lemma Recursive_Echo_constructed rate channels :
  (0 < rate)%Z →
  ∃ p, Recursive_Echo rate channels = Some p ∧ has_history p [] [] ∧
       RTProcessor.self p
       = ARecursive_Echo Recursive_Echo_a Recursive_Echo_norm
           (int_frac 3 10 rate) ∧
       length_ (RTProcessor.x p) = (rate + 1)%Z ∧
       length_ (RTProcessor.y p) = (rate + 1)%Z.
Proof.
  intros Hr. unfold Recursive_Echo.
  destruct (init_has_history rate channels rate ltac:(lia))
    as (p & -> & Hh & Hsf & _ & Hlx & Hly).
  simpl. rewrite Hsf. eexists. split; [reflexivity |]. split; [exact Hh |].
  split; [reflexivity |]. simpl. auto.
Qed.

Lemma Recursive_Echo_process (N c : Z) p hx hy s :
  (0 ≤ N < c)%Z →
  has_history p hx hy →
  RTProcessor.self p = ARecursive_Echo Recursive_Echo_a Recursive_Echo_norm N →
  length_ (RTProcessor.x p) = c → length_ (RTProcessor.y p) = c →
  ∃ q, process p s = Some (Recursive_Echo_step (Z.to_nat N) (s :: hx) hy, q).
Proof.
  intros HN Hh Hself Hlx Hly.
  assert (Hok : processor_ok p) by (split; apply Hh).
  destruct (process_step p s Hok)
    as (bx & out & q & by_ & Hpx & Hproc & _ & _ & _ & Hrun & _ & Hhist).
  destruct (Hhist hx hy Hh) as [[[Hbx Hgx] [Hby Hgy]] _].
  apply push_length in Hpx.
  unfold _process in Hproc. simpl in Hproc, Hgx, Hgy. rewrite Hself in Hproc.
  rewrite !Hgx, !Hgy in Hproc by lia.
  simpl in Hproc. injection Hproc as <- _.
  eexists. exact Hrun.
Qed.

(** What the class computes, on every input sequence. *)
Lemma Recursive_Echo_run rate channels xs :
  (0 < rate)%Z →
  run ERecursive_Echo rate channels xs
  = Some (difference_equation
            (Recursive_Echo_step (Z.to_nat (int_frac 3 10 rate))) [] [] xs).
Proof.
  intros Hr. unfold run, construct.
  destruct (Recursive_Echo_constructed rate channels Hr)
    as (p & -> & Hh & Hself & Hlx & Hly).
  simpl.
  pose proof (int_frac_bounds rate Hr) as HN.
  destruct (static_run (Recursive_Echo_step (Z.to_nat (int_frac 3 10 rate)))
              (ARecursive_Echo Recursive_Echo_a Recursive_Echo_norm
                 (int_frac 3 10 rate))
              (rate + 1) (rate + 1) eq_refl
              (λ p hx hy s, Recursive_Echo_process (int_frac 3 10 rate)
                              (rate + 1) p hx hy s ltac:(lia))
              xs p [] [] Hh Hself Hlx Hly) as (q & ->).
  reflexivity.
Qed.

(** *** Unfolding a recurrence at an index *)

Lemma difference_equation_length step xs : ∀ hx hy,
  length (difference_equation step hx hy xs) = length xs.
Proof.
  induction xs as [| s xs IH]; intros hx hy; simpl; [| rewrite IH]; reflexivity.
Qed.

Lemma difference_equation_nth step xs : ∀ hx hy n,
  (n < length xs)%nat →
  nth n (difference_equation step hx hy xs) 0
  = step (rev (take (S n) xs) ++ hx)
         (rev (take n (difference_equation step hx hy xs)) ++ hy).
Proof.
  induction xs as [| s xs IH]; intros hx hy n Hn; simpl in Hn; [lia |].
  destruct n as [| n]; simpl.
  - reflexivity.
  - rewrite IH by lia. rewrite <- !app_assoc. reflexivity.
Qed.

Lemma back_rev_take (ys : list R) (n k : nat) :
  (n ≤ length ys)%nat →
  back (rev (take n ys) ++ []) k
  = if (k <? n)%nat then nth (n - 1 - k) ys 0 else 0.
Proof.
  intros Hn. unfold back. rewrite app_nil_r.
  assert (Hlen : length (take n ys) = n) by (apply length_take_le; exact Hn).
  destruct (Nat.ltb_spec k n).
  - rewrite rev_nth by lia. rewrite Hlen.
    replace (n - S k)%nat with (n - 1 - k)%nat by lia.
    rewrite nth_firstn.
    destruct (Nat.ltb_spec (n - 1 - k) n); [reflexivity | lia].
  - apply nth_overflow. rewrite length_rev. lia.
Qed.

Lemma nth_impulse len n :
  nth n (impulse len) 0 = if (n =? 0)%nat then 1 else 0.
Proof.
  destruct n as [| n]; simpl; [reflexivity |].
  rewrite nth_lookup.
  destruct (replicate len 0 !! n) as [v |] eqn:E; simpl; [| reflexivity].
  apply lookup_replicate in E. tauto.
Qed.

(** One unfolding of the recursive echo: the feedback term is the output
    [N + 1] samples back. *)
Lemma Recursive_Echo_unfold (N : nat) (xs : list R) (n : nat) :
  (n < length xs)%nat →
  let ys := difference_equation (Recursive_Echo_step N) [] [] xs in
  nth n ys 0
  = Recursive_Echo_norm *
      (nth n xs 0 +
       Recursive_Echo_a * (if (N <? n)%nat then nth (n - 1 - N) ys 0 else 0)).
Proof.
  intros Hn ys. unfold ys at 1.
  rewrite difference_equation_nth by exact Hn. fold ys.
  unfold Recursive_Echo_step.
  rewrite !back_rev_take
    by (unfold ys; rewrite ?difference_equation_length; lia).
  simpl. replace (n - 0 - 0)%nat with n by lia. reflexivity.
Qed.

(** The impulse response in closed form: an echo every [N + 1] samples,
    each [norm * a] times the one before, silence in between. *)
Lemma Recursive_Echo_impulse_response (N len : nat) (k : nat) : ∀ m,
  (m < S N)%nat → (k * S N + m ≤ len)%nat →
  nth (k * S N + m)
      (difference_equation (Recursive_Echo_step N) [] [] (impulse len)) 0
  = if (m =? 0)%nat
    then Recursive_Echo_norm * (Recursive_Echo_norm * Recursive_Echo_a) ^ k
    else 0.
Proof.
  induction k as [| k IH]; intros m Hm Hlen.
  - rewrite Recursive_Echo_unfold
      by (unfold impulse; simpl; rewrite length_replicate; lia).
    rewrite nth_impulse. simpl.
    destruct (Nat.ltb_spec N m); [lia |].
    destruct (Nat.eqb_spec m 0); simpl; lra.
  - rewrite Recursive_Echo_unfold
      by (unfold impulse; simpl length; rewrite length_replicate; lia).
    rewrite nth_impulse.
    destruct (Nat.eqb_spec (S k * S N + m) 0) as [E | _]; [simpl in E; lia |].
    destruct (Nat.ltb_spec N (S k * S N + m)) as [_ | E]; [| simpl in E; lia].
    replace (S k * S N + m - 1 - N)%nat with (k * S N + m)%nat by lia.
    rewrite IH by lia.
    destruct (Nat.eqb_spec m 0); [| lra].
    change ((Recursive_Echo_norm * Recursive_Echo_a) ^ S k)
      with (Recursive_Echo_norm * Recursive_Echo_a
            * (Recursive_Echo_norm * Recursive_Echo_a) ^ k).
    lra.
Qed.

(** With a delay of at least one sample, the impulse response is silent
    at index [N]: the first echo comes one sample later. *)
Lemma Recursive_Echo_silent_at_N rate channels len ys :
  (0 < rate)%Z →
  (0 < Z.to_nat (int_frac 3 10 rate) ≤ len)%nat →
  run ERecursive_Echo rate channels (impulse len) = Some ys →
  nth (Z.to_nat (int_frac 3 10 rate)) ys 0 = 0.
Proof.
  intros Hr HN Hrun.
  rewrite Recursive_Echo_run in Hrun by exact Hr.
  assert (Hys : ys = difference_equation
                       (Recursive_Echo_step (Z.to_nat (int_frac 3 10 rate)))
                       [] [] (impulse len)) by congruence.
  rewrite Hys. clear Hys Hrun.
  set (N := Z.to_nat (int_frac 3 10 rate)) in *.
  pose proof (Recursive_Echo_impulse_response N len 0 N) as H.
  rewrite Nat.mul_0_l, Nat.add_0_l in H.
  rewrite H by lia.
  destruct (Nat.eqb_spec N 0); [lia | reflexivity].
Qed.

(** C7 as worded fails: at the demo's rate 16000 ([N = 4800]) the output
    at index [N] of the impulse response is 0. *)
Lemma echoes_decay_by_a_fails :
  ¬ echoes_decay_by_a 16000 1 (Z.to_nat 14400).
Proof.
  intros (ys & Hrun & HN & _). apply HN.
  assert (E : int_frac 3 10 16000 = 4800%Z) by reflexivity.
  apply (Recursive_Echo_silent_at_N 16000 1 (Z.to_nat 14400) ys);
    [lia | rewrite E; lia | exact Hrun].
Qed.

End RecursiveEcho.

(** ** The channel count is never read *)

(** C9: an effect constructed at the same rate with two channel counts
    gives the same outputs on the same inputs. *)
Theorem channels_ignored (e : effect) (rate c1 c2 : Z) (xs : list R) :
  run e rate c1 xs = run e rate c2 xs.
Proof.
  unfold run. destruct e; reflexivity.
Qed.

(** ** Tremolo and Wah: where the phase advances *)

Section Oscillators.

Lemma Tremolo_process p hx hy depth phi omega s :
  has_history p hx hy → RTProcessor.self p = ATremolo depth phi omega →
  ∃ q, process p s
       = Some (((1.0 - depth) + depth * 0.5 * (1 + cos (omega + phi))) * s, q) ∧
       has_history q (s :: hx)
         ((((1.0 - depth) + depth * 0.5 * (1 + cos (omega + phi))) * s) :: hy) ∧
       RTProcessor.self q = ATremolo depth phi (omega + phi).
Proof.
  intros Hh Hself.
  assert (Hok : processor_ok p) by (split; apply Hh).
  destruct (process_step p s Hok)
    as (bx & out & q & by_ & _ & Hproc & _ & _ & _ & Hrun & _ & Hhist).
  destruct (Hhist hx hy Hh) as [[[Hbx Hgx] _] Hq].
  unfold _process in Hproc. simpl in Hproc, Hgx, Hbx. rewrite Hself in Hproc.
  rewrite (Hgx 0%Z) in Hproc by (destruct Hbx; lia).
  simpl in Hproc. injection Hproc as <- <-.
  eexists. split; [exact Hrun |]. split; [exact Hq | reflexivity].
Qed.

Lemma Tremolo_run_nth depth phi xs : ∀ p hx hy omega,
  has_history p hx hy → RTProcessor.self p = ATremolo depth phi omega →
  ∃ ys q, process_all p xs = Some (ys, q) ∧
          ∀ n, (n < length xs)%nat →
               nth n ys 0
               = ((1.0 - depth)
                  + depth * 0.5 * (1 + cos (omega + INR (S n) * phi)))
                 * nth n xs 0.
Proof.
  induction xs as [| s xs IH]; intros p hx hy omega Hh Hself; simpl.
  - exists [], p. split; [reflexivity |]. intros n Hn. lia.
  - destruct (Tremolo_process p hx hy depth phi omega s Hh Hself)
      as (q & -> & Hq & Hself').
    destruct (IH q _ _ _ Hq Hself') as (ys & r & Hall & Hnth).
    simpl. rewrite Hall. simpl. eexists. eexists. split; [reflexivity |].
    intros [| n] Hn.
    + simpl. replace (omega + 1 * phi) with (omega + phi) by ring. reflexivity.
    + change (nth (S n) (?a :: ys) 0) with (nth n ys 0).
      change (nth (S n) (s :: xs) 0) with (nth n xs 0).
      rewrite Hnth by lia.
      replace (omega + phi + INR (S n) * phi)
        with (omega + INR (S (S n)) * phi)
        by (rewrite (S_INR (S n)); ring).
      reflexivity.
Qed.

Lemma Wah_process p hx hy pd phi omega pm pp zm zp b2 a2 ob1 oa1 s :
  has_history p hx hy →
  length_ (RTProcessor.x p) = 3%Z → length_ (RTProcessor.y p) = 3%Z →
  RTProcessor.self p = AWah pd phi omega pm pp zm zp b2 a2 ob1 oa1 →
  ∃ out q,
    process p s = Some (out, q) ∧ has_history q (s :: hx) (out :: hy) ∧
    RTProcessor.self q
    = AWah pd phi (omega + phi) pm pp zm zp b2 a2
        (Some (-2.0 * zm * cos (zp + pd * (1.0 + cos omega) / 2.0)))
        (Some (-2.0 * pm * cos (pp + pd * (1.0 + cos omega) / 2.0))).
Proof.
  intros Hh Hlx Hly Hself.
  assert (Hok : processor_ok p) by (split; apply Hh).
  destruct (process_step p s Hok)
    as (bx & out & q & by_ & Hpx & Hproc & _ & _ & _ & Hrun & _ & Hhist).
  destruct (Hhist hx hy Hh) as [[[Hbx Hgx] [Hby Hgy]] Hq].
  apply push_length in Hpx.
  unfold _process in Hproc. simpl in Hproc, Hgx, Hgy. rewrite Hself in Hproc.
  rewrite !Hgx, !Hgy in Hproc by lia.
  simpl in Hproc. injection Hproc as <- <-.
  eexists. eexists. split; [exact Hrun |]. split; [exact Hq | reflexivity].
Qed.

Lemma Wah_run pd phi pm pp zm zp b2 a2 xs : ∀ p hx hy omega ob1 oa1,
  has_history p hx hy →
  length_ (RTProcessor.x p) = 3%Z → length_ (RTProcessor.y p) = 3%Z →
  RTProcessor.self p = AWah pd phi omega pm pp zm zp b2 a2 ob1 oa1 →
  ∃ ys q hx' hy' ob1' oa1',
    process_all p xs = Some (ys, q) ∧ has_history q hx' hy' ∧
    length_ (RTProcessor.x q) = 3%Z ∧ length_ (RTProcessor.y q) = 3%Z ∧
    RTProcessor.self q
    = AWah pd phi (omega + INR (length xs) * phi) pm pp zm zp b2 a2 ob1' oa1'.
Proof.
  induction xs as [| s xs IH]; intros p hx hy omega ob1 oa1 Hh Hlx Hly Hself.
  - exists [], p, hx, hy, ob1, oa1. simpl.
    replace (omega + 0 * phi) with omega by ring. auto.
  - destruct (Wah_process p hx hy _ _ _ _ _ _ _ _ _ _ _ s Hh Hlx Hly Hself)
      as (out & q & Hrun & Hq & Hself').
    assert (Hok : processor_ok p) by (split; apply Hh).
    destruct (process_lengths p s _ _ Hok Hrun) as [Hlx' Hly'].
    destruct (IH q _ _ _ _ _ Hq ltac:(congruence) ltac:(congruence) Hself')
      as (ys & r & hx' & hy' & ob1' & oa1' & Hall & Hr & Hrx & Hry & Hrs).
    assert (Hpa : process_all p (s :: xs) = Some (out :: ys, r)).
    { simpl. rewrite Hrun. simpl. rewrite Hall. reflexivity. }
    exists (out :: ys), r, hx', hy', ob1', oa1'.
    split; [exact Hpa |]. split; [exact Hr |].
    split; [exact Hrx |]. split; [exact Hry |].
    rewrite Hrs. f_equal.
    change (length (s :: xs)) with (S (length xs)). rewrite S_INR. ring.
Qed.

Lemma Tremolo_constructed rate channels :
  rate ≠ 0%Z →
  ∃ p, Tremolo rate channels = Some p ∧ has_history p [] [] ∧
       RTProcessor.self p = ATremolo 0.9 (Tremolo_phi rate) 0.
Proof.
  intros Hr. unfold Tremolo.
  destruct (init_has_history rate channels 1 ltac:(lia))
    as (p & -> & Hh & Hsf & _ & _ & _).
  simpl. rewrite Hsf, py_div_nonzero by exact Hr. simpl.
  eexists. split; [reflexivity |]. split; [exact Hh | reflexivity].
Qed.

Lemma Wah_constructed rate channels :
  rate ≠ 0%Z →
  ∃ p, Wah rate channels = Some p ∧ has_history p [] [] ∧
       length_ (RTProcessor.x p) = 3%Z ∧ length_ (RTProcessor.y p) = 3%Z ∧
       RTProcessor.self p
       = AWah (0.3 * PI) (Wah_phi rate) 0.0 0.99 (0.04 * PI) 0.9 (0.06 * PI)
           (0.9 * 0.9) (0.99 * 0.99) None None.
Proof.
  intros Hr. unfold Wah.
  destruct (init_has_history rate channels 2 ltac:(lia))
    as (p & -> & Hh & Hsf & _ & Hlx & Hly).
  simpl. rewrite Hsf, py_div_nonzero by exact Hr. simpl.
  eexists. split; [reflexivity |]. split; [exact Hh |].
  simpl. auto.
Qed.

(** C10: [Tremolo] adds [phi] to its phase before taking the cosine, so
    its output at index [n] is the input scaled by
    [(1 - depth) + depth * 0.5 * (1 + cos ((n+1) * phi))]; [Wah] takes the
    cosine first, so the coefficients it sets while processing the sample
    of index [n] come from the deviation at phase [n * phi], and the
    stored phase is then [(n+1) * phi]. *)
Theorem phase_advance_order (rate channels : Z) (xs : list R) (s : R) :
  rate ≠ 0%Z →
  (∃ ys, run ETremolo rate channels xs = Some ys ∧
         ∀ n, (n < length xs)%nat →
              nth n ys 0
              = ((1 - 0.9)
                 + 0.9 * 0.5 * (1 + cos (INR (n + 1) * Tremolo_phi rate)))
                * nth n xs 0) ∧
  (∃ p0 ys p out q,
      Wah rate channels = Some p0 ∧
      process_all p0 xs = Some (ys, p) ∧
      process p s = Some (out, q) ∧
      let n := length xs in
      let d := Wah_deviation (INR n * Wah_phi rate) in
      RTProcessor.self q
      = AWah (0.3 * PI) (Wah_phi rate) (INR (n + 1) * Wah_phi rate)
          0.99 (0.04 * PI) 0.9 (0.06 * PI) (0.9 * 0.9) (0.99 * 0.99)
          (Some (-2.0 * 0.9 * cos (0.06 * PI + d)))
          (Some (-2.0 * 0.99 * cos (0.04 * PI + d)))).
Proof.
  intros Hr. split.
  - unfold run, construct.
    destruct (Tremolo_constructed rate channels Hr) as (p & -> & Hh & Hself).
    simpl.
    destruct (Tremolo_run_nth _ _ xs p [] [] 0 Hh Hself) as (ys & q & -> & Hnth).
    simpl. exists ys. split; [reflexivity |].
    intros n Hn. rewrite Hnth by exact Hn.
    replace (0 + INR (S n) * Tremolo_phi rate)
      with (INR (n + 1) * Tremolo_phi rate)
      by (rewrite Nat.add_1_r; ring).
    f_equal. lra.
  - destruct (Wah_constructed rate channels Hr)
      as (p0 & Hc & Hh0 & Hlx0 & Hly0 & Hself0).
    destruct (Wah_run _ _ _ _ _ _ _ _ xs p0 [] [] _ _ _ Hh0 Hlx0 Hly0 Hself0)
      as (ys & p & hx & hy & ob1 & oa1 & Hall & Hh & Hlx & Hly & Hself).
    destruct (Wah_process p hx hy _ _ _ _ _ _ _ _ _ _ _ s Hh Hlx Hly Hself)
      as (out & q & Hrun & _ & Hself').
    exists p0, ys, p, out, q.
    split; [exact Hc |]. split; [exact Hall |]. split; [exact Hrun |].
    simpl. rewrite Hself'. unfold Wah_deviation.
    replace (0.0 + INR (length xs) * Wah_phi rate)
      with (INR (length xs) * Wah_phi rate) by lra.
    f_equal.
    rewrite Nat.add_1_r, S_INR. ring.
Qed.

Lemma phase_advance_order_witness :
  (∃ ys, run ETremolo 16000 1 [1; 2] = Some ys ∧
         ∀ n, (n < length [1; 2])%nat →
              nth n ys 0
              = ((1 - 0.9)
                 + 0.9 * 0.5 * (1 + cos (INR (n + 1) * Tremolo_phi 16000)))
                * nth n [1; 2] 0) ∧
  (∃ p0 ys p out q,
      Wah 16000 1 = Some p0 ∧
      process_all p0 [1; 2] = Some (ys, p) ∧
      process p 3 = Some (out, q) ∧
      let n := length [1; 2] in
      let d := Wah_deviation (INR n * Wah_phi 16000) in
      RTProcessor.self q
      = AWah (0.3 * PI) (Wah_phi 16000) (INR (n + 1) * Wah_phi 16000)
          0.99 (0.04 * PI) 0.9 (0.06 * PI) (0.9 * 0.9) (0.99 * 0.99)
          (Some (-2.0 * 0.9 * cos (0.06 * PI + d)))
          (Some (-2.0 * 0.99 * cos (0.04 * PI + d)))).
Proof.
  apply (phase_advance_order 16000 1 [1; 2] 3). lia.
Defined.

End Oscillators.

(** ** Selecting an effect on the control path *)

Section Selection.

Local Open Scope Z_scope.

Lemma ord_q : ord "q" = 113.
Proof. reflexivity. Qed.

Lemma ord_0 : ord "0" = 48.
Proof. reflexivity. Qed.

(** The menu the demo builds. *)
Lemma choices_table :
  choices
  = <[8 := "Tremolo"]> (<[7 := "Wah"]> (<[6 := "Fuzz"]> (<[5 := "Biquad"]>
      (<[4 := "Reverb"]> (<[3 := "Natural_Echo"]> (<[2 := "Recursive_Echo"]>
        (<[1 := "Echo"]> {[ 0 := "Delta" ]})))))))%string.
Proof. vm_compute. reflexivity. Qed.

Lemma choices_size : size choices = 9%nat.
Proof. vm_compute. reflexivity. Qed.

Lemma choices_outside key : key < 0 ∨ 8 < key → choices !! key = None.
Proof.
  intros Hk. rewrite choices_table.
  rewrite !lookup_insert_ne by lia. apply lookup_singleton_ne. lia.
Qed.

Lemma control_step_keep s polled :
  polled ≠ ord "q" → choices !! (polled - ord "0") = None →
  control_step s polled = Continue s.
Proof.
  intros Hq Hnone. unfold control_step.
  destruct (Z.eqb_spec polled (ord "q")); [contradiction |].
  rewrite Hnone. reflexivity.
Qed.

Lemma control_step_select s polled name new p :
  polled ≠ ord "q" → choices !! (polled - ord "0") = Some name →
  getattr name = Some new → new RATE CHANNELS = Some p →
  control_step s polled
  = Continue (mkSession p (constructed s) (S (constructed s))).
Proof.
  intros Hq Hname Hnew Hp. unfold control_step.
  destruct (Z.eqb_spec polled (ord "q")); [contradiction |].
  rewrite Hname, Hnew, Hp. reflexivity.
Qed.

Lemma menu_entry (k : nat) e :
  menu !! k = Some e →
  ∃ name, choices !! Z.of_nat k = Some name ∧
          getattr name = Some (construct e).
Proof.
  intros Hk. rewrite choices_table.
  do 9 (destruct k as [| k];
        [injection Hk as <-; eexists; split; reflexivity |]).
  discriminate Hk.
Qed.

(** C8: for a polled key other than the quit key, the selection key is
    [polled - ord '0']. Outside [0, count-1] the slot keeps the same
    processor object, state included, and the loop goes on; inside the
    range a fresh processor of the chosen menu entry is constructed and
    put in the slot. *)
Theorem selection_outside_range_is_noop (s : session) (polled : Z) :
  polled ≠ ord "q" →
  let key := polled - ord "0" in
  let count := Z.of_nat (size choices) in
  (key < 0 ∨ count - 1 < key → control_step s polled = Continue s) ∧
  (0 ≤ key ≤ count - 1 →
   ∃ e p, menu !! Z.to_nat key = Some e ∧
          construct e RATE CHANNELS = Some p ∧ has_history p [] [] ∧
          control_step s polled
          = Continue (mkSession p (constructed s) (S (constructed s)))).
Proof.
  intros Hq key count. unfold count. rewrite choices_size. split.
  - intros Hout. apply control_step_keep; [exact Hq |].
    apply choices_outside. fold key. lia.
  - intros Hin.
    destruct (lookup_lt_is_Some_2 menu (Z.to_nat key)) as [e He].
    { change (length menu) with 9%nat. lia. }
    destruct (menu_entry _ _ He) as (name & Hname & Hnew).
    rewrite Z2Nat.id in Hname by lia.
    destruct (construct_has_history e RATE CHANNELS ltac:(reflexivity))
      as (p & Hp & Hh & _).
    exists e, p. split; [exact He |]. split; [exact Hp |]. split; [exact Hh |].
    apply (control_step_select s polled name (construct e)); assumption.
Qed.

Lemma selection_outside_range_is_noop_witness :
  let s := mkSession
             (RTProcessor.mk 16000 (mkCircularBuffer 2 [1; 0]%R 0)
                (mkCircularBuffer 2 [1; 0]%R 0) ABase) 0 1 in
  let key := 57 - ord "0" in
  let count := Z.of_nat (size choices) in
  (key < 0 ∨ count - 1 < key → control_step s 57 = Continue s) ∧
  (0 ≤ key ≤ count - 1 →
   ∃ e p, menu !! Z.to_nat key = Some e ∧
          construct e RATE CHANNELS = Some p ∧ has_history p [] [] ∧
          control_step s 57
          = Continue (mkSession p (constructed s) (S (constructed s)))).
Proof.
  intros s. apply (selection_outside_range_is_noop s 57).
  rewrite ord_q. lia.
Defined.

End Selection.

(** * Further properties *)

(** ** Circular buffers: start-up, window shift, degenerate sizes *)

Section BufferExtras.

Local Open Scope Z_scope.

(** An offset that reaches back before the first push, but within the
    capacity, reads the 0 the buffer was created with. *)
Theorem get_before_first_push max_delay (vs : list R) (i : nat) :
  0 ≤ max_delay → (length vs ≤ i)%nat → Z.of_nat i ≤ max_delay →
  (b0 ← CircularBuffer.init max_delay;
   b ← push_all b0 vs;
   CircularBuffer.get b (Z.of_nat i)) = Some 0%R.
Proof.
  intros Hd Hi Hmax.
  destruct (init_holds max_delay Hd) as (b0 & Hinit & Hb0 & Hlen0).
  destruct (push_all_holds vs b0 [] Hb0) as (b & Hall & Hb & Hlen).
  rewrite Hinit. simpl. rewrite Hall. simpl.
  rewrite (holds_get b _ _ Hb).
  rewrite Z.mod_small by lia. rewrite Nat2Z.id. f_equal.
  apply nth_overflow. rewrite app_nil_r, length_rev. exact Hi.
Qed.

Lemma get_before_first_push_witness :
  (b0 ← CircularBuffer.init 4;
   b ← push_all b0 [7; 8]%R;
   CircularBuffer.get b (Z.of_nat 3)) = Some 0%R.
Proof.
  apply (get_before_first_push 4 [7; 8]%R 3); simpl; lia.
Defined.

(** One more push moves the window by one: the new value is at offset 0,
    what was at offset [i] is at [i + 1], and the offset one past the
    capacity wraps onto the new value, the slot of the oldest one. *)
Theorem push_shifts_window max_delay (vs : list R) (v : R) (i : Z) :
  0 ≤ max_delay → 0 ≤ i < max_delay →
  ∃ b b', (b0 ← CircularBuffer.init max_delay; push_all b0 vs) = Some b ∧
          CircularBuffer.push b v = Some b' ∧
          CircularBuffer.get b' 0 = Some v ∧
          CircularBuffer.get b' (i + 1) = CircularBuffer.get b i ∧
          CircularBuffer.get b' (max_delay + 1) = Some v.
Proof.
  intros Hd Hi.
  destruct (init_holds max_delay Hd) as (b0 & Hinit & Hb0 & Hlen0).
  destruct (push_all_holds vs b0 [] Hb0) as (b & Hall & Hb & Hlen).
  destruct (push_holds b _ v Hb) as (b' & Hpush & Hb' & Hlen').
  exists b, b'. rewrite Hinit. simpl.
  split; [exact Hall |]. split; [exact Hpush |].
  assert (Hcap : length_ b' = max_delay + 1) by congruence.
  assert (H0 : CircularBuffer.get b' 0 = Some v).
  { rewrite (proj2 Hb' 0) by lia. reflexivity. }
  split; [exact H0 |]. split.
  - rewrite (proj2 Hb' (i + 1)) by lia.
    rewrite (proj2 Hb i) by lia.
    replace (Z.to_nat (i + 1)) with (S (Z.to_nat i)) by lia. reflexivity.
  - rewrite (get_wraps b' (max_delay + 1) (proj1 Hb')).
    rewrite Hcap, Z.mod_same by lia. exact H0.
Qed.

Lemma push_shifts_window_witness :
  ∃ b b', (b0 ← CircularBuffer.init 2; push_all b0 [1; 2; 3]%R) = Some b ∧
          CircularBuffer.push b 9%R = Some b' ∧
          CircularBuffer.get b' 0 = Some 9%R ∧
          CircularBuffer.get b' (1 + 1) = CircularBuffer.get b 1 ∧
          CircularBuffer.get b' (2 + 1) = Some 9%R.
Proof.
  apply (push_shifts_window 2 [1; 2; 3]%R 9%R 1); lia.
Defined.

(** A length below -1 is refused at construction; length -1 builds an
    empty buffer that refuses every push and every read. *)
Theorem degenerate_buffers :
  (∀ d, d < -1 → CircularBuffer.init d = None) ∧
  (∃ b, CircularBuffer.init (-1) = Some b ∧
        ∀ (v : R) (n : Z), CircularBuffer.push b v = None ∧
                           CircularBuffer.get b n = None).
Proof.
  split.
  - intros d Hd. unfold CircularBuffer.init.
    destruct (Z.ltb_spec (d + 1) 0); [reflexivity | lia].
  - eexists. split; [reflexivity |]. intros v n. split; reflexivity.
Qed.

End BufferExtras.

(** ** Construction and exception freedom *)

Section ConstructionExtras.

Local Open Scope Z_scope.

Lemma buffer_init_is_Some d : is_Some (CircularBuffer.init d) ↔ -1 ≤ d.
Proof.
  unfold CircularBuffer.init.
  destruct (Z.ltb_spec (d + 1) 0) as [Hlt | Hge]; split; intros H.
  - destruct H as [b Hb]. discriminate Hb.
  - lia.
  - lia.
  - eauto.
Qed.

Lemma processor_init_is_Some rate channels d :
  is_Some (RTProcessor.init rate channels d) ↔ -1 ≤ d.
Proof.
  rewrite <- buffer_init_is_Some. unfold RTProcessor.init.
  destruct (CircularBuffer.init d); simpl; split; intros [p Hp]; eauto;
    discriminate Hp.
Qed.

(** Which constructor calls raise: the four delay effects need
    [rate >= -1] (their buffers have [rate + 1] slots), [Wah] and [Tremolo]
    divide by the rate, the others take any rate. *)
Theorem construct_succeeds_iff (e : effect) (rate channels : Z) :
  is_Some (construct e rate channels) ↔
  match e with
  | EDelta | EBiquad | EFuzz => True
  | EWah | ETremolo => rate ≠ 0
  | EEcho | ERecursive_Echo | ENatural_Echo | EReverb => -1 ≤ rate
  end.
Proof.
  assert (Hnone : ¬ is_Some (@None RTProcessor.t))
    by (intros [q Hq]; discriminate Hq).
  assert (Hfixed : ∀ d, -1 ≤ d → ∃ p, RTProcessor.init rate channels d = Some p ∧
                                       RTProcessor.SF p = rate).
  { intros d Hd.
    destruct (proj2 (processor_init_is_Some rate channels d) Hd) as [p Hp].
    exists p. split; [exact Hp |].
    unfold RTProcessor.init in Hp.
    destruct (CircularBuffer.init d); simpl in Hp; [| discriminate Hp].
    injection Hp as <-. reflexivity. }
  assert (Hdelay : ∀ f : RTProcessor.t → RTProcessor.t,
             is_Some (p ← RTProcessor.init rate channels rate; Some (f p))
             ↔ -1 ≤ rate).
  { intros f. rewrite <- (processor_init_is_Some rate channels rate).
    destruct (RTProcessor.init rate channels rate); simpl; split;
      intros H; eauto; destruct (Hnone H). }
  assert (Hosc : ∀ a (f : RTProcessor.t → R → RTProcessor.t),
             is_Some (p ← RTProcessor.init rate channels 2;
                      phi ← py_div a (RTProcessor.SF p); Some (f p phi))
             ↔ rate ≠ 0).
  { intros a f. destruct (Hfixed 2 ltac:(lia)) as (p & -> & Hsf). simpl.
    rewrite Hsf. unfold py_div.
    destruct (Z.eqb_spec rate 0); simpl; split; intros H;
      try (destruct (Hnone H)); try contradiction; eauto. }
  assert (Hosc1 : ∀ a (f : RTProcessor.t → R → RTProcessor.t),
             is_Some (p ← RTProcessor.init rate channels 1;
                      phi ← py_div a (RTProcessor.SF p); Some (f p phi))
             ↔ rate ≠ 0).
  { intros a f. destruct (Hfixed 1 ltac:(lia)) as (p & -> & Hsf). simpl.
    rewrite Hsf. unfold py_div.
    destruct (Z.eqb_spec rate 0); simpl; split; intros H;
      try (destruct (Hnone H)); try contradiction; eauto. }
  destruct e; unfold construct.
  - unfold Delta. destruct (Hfixed 1 ltac:(lia)) as (p & -> & _).
    split; eauto.
  - unfold Echo. apply Hdelay.
  - unfold Recursive_Echo. apply Hdelay.
  - unfold Natural_Echo. apply Hdelay.
  - unfold Reverb. apply Hdelay.
  - unfold Biquad. destruct (Hfixed 2 ltac:(lia)) as (p & -> & _).
    simpl. split; eauto.
  - unfold Fuzz. destruct (Hfixed 1 ltac:(lia)) as (p & -> & _).
    simpl. split; eauto.
  - unfold Wah. apply Hosc.
  - unfold Tremolo. apply Hosc1.
Qed.

(** At a positive rate no call raises: every effect answers every input
    sequence, one output per input sample. *)
Theorem run_is_total (e : effect) (rate channels : Z) (xs : list R) :
  0 < rate →
  ∃ ys, run e rate channels xs = Some ys ∧ length ys = length xs.
Proof.
  intros Hr. unfold run.
  destruct (construct_has_history e rate channels Hr) as (p & -> & Hh & _).
  destruct (process_all_history xs p [] [] Hh) as (ys & q & Hall & _ & Hlen).
  simpl. rewrite Hall. simpl. eauto.
Qed.

Lemma run_is_total_witness :
  ∃ ys, run ENatural_Echo 16000 1 [1; 2; 3]%R = Some ys ∧
        length ys = length [1; 2; 3]%R.
Proof.
  apply (run_is_total ENatural_Echo 16000 1 [1; 2; 3]%R). lia.
Defined.

(** At rate -1 the four delay effects are constructed, on empty buffers,
    and then raise on the first sample. *)
Theorem delay_effects_raise_at_rate_minus_one (e : effect) (channels : Z) (s : R) :
  e = EEcho ∨ e = ERecursive_Echo ∨ e = ENatural_Echo ∨ e = EReverb →
  ∃ p, construct e (-1) channels = Some p ∧ process p s = None.
Proof.
  intros [-> | [-> | [-> | ->]]]; eexists; split; reflexivity.
Qed.

Lemma delay_effects_raise_at_rate_minus_one_witness :
  ∃ p, construct EEcho (-1) 1 = Some p ∧ process p 1%R = None.
Proof.
  apply (delay_effects_raise_at_rate_minus_one EEcho 1 1%R). left. reflexivity.
Defined.

Lemma _process_SF p out q :
  _process p = Some (out, q) →
  RTProcessor.SF q = RTProcessor.SF p ∧
  time_varying (RTProcessor.self q) = time_varying (RTProcessor.self p).
Proof.
  unfold _process. intros Hp.
  destruct (RTProcessor.self p) eqn:Hs;
    repeat match type of Hp with
    | context [CircularBuffer.get ?b ?n] =>
        destruct (CircularBuffer.get b n); simpl in Hp; try discriminate Hp
    end;
    injection Hp as _ <-; simpl; rewrite ?Hs; auto.
Qed.

(** [process] never resizes a history and never changes the sample rate,
    whatever the class; the buffers stay well shaped. *)
Theorem process_all_keeps_shape (p : RTProcessor.t) (xs : list R) :
  processor_ok p →
  ∃ ys q, process_all p xs = Some (ys, q) ∧ length ys = length xs ∧
          processor_ok q ∧
          RTProcessor.SF q = RTProcessor.SF p ∧
          length_ (RTProcessor.x q) = length_ (RTProcessor.x p) ∧
          length_ (RTProcessor.y q) = length_ (RTProcessor.y p).
Proof.
  revert p. induction xs as [| s xs IH]; intros p Hok.
  - exists [], p. simpl. auto 10.
  - destruct (process_step p s Hok)
      as (bx & out & q & by_ & _ & Hproc & _ & _ & _ & Hrun & Hok' & _).
    destruct (process_lengths p s _ _ Hok Hrun) as [Hlx Hly].
    apply _process_SF in Hproc. destruct Hproc as [Hsf _]. simpl in Hsf.
    destruct (IH _ Hok') as (ys & r & Hall & Hlen & Hr & Hsf' & Hlx' & Hly').
    exists (out :: ys), r. simpl. rewrite Hrun. simpl. rewrite Hall. simpl.
    split; [reflexivity |]. split; [congruence |]. split; [exact Hr |].
    simpl in Hsf'. repeat split; congruence.
Qed.

Lemma process_all_keeps_shape_witness :
  let p := RTProcessor.mk 16000 (mkCircularBuffer 2 [0; 0]%R 1)
             (mkCircularBuffer 2 [0; 0]%R 1) ABase in
  ∃ ys q, process_all p [1; 2; 3]%R = Some (ys, q) ∧
          length ys = length [1; 2; 3]%R ∧
          processor_ok q ∧
          RTProcessor.SF q = RTProcessor.SF p ∧
          length_ (RTProcessor.x q) = length_ (RTProcessor.x p) ∧
          length_ (RTProcessor.y q) = length_ (RTProcessor.y p).
Proof.
  intros p. apply (process_all_keeps_shape p [1; 2; 3]%R).
  unfold processor_ok, buffer_ok. simpl. lia.
Defined.

End ConstructionExtras.

(** ** What each static class computes *)

Section ClassRecurrences.

Lemma back_inputs (xs : list R) (n k : nat) :
  (n < length xs)%nat → back (rev (take (S n) xs) ++ []) k = delayed xs n k.
Proof.
  intros Hn. unfold back, delayed. rewrite app_nil_r.
  assert (Hlen : length (take (S n) xs) = S n) by (apply length_take_le; lia).
  destruct (Nat.leb_spec k n).
  - rewrite rev_nth by lia. rewrite Hlen.
    replace (S n - S k)%nat with (n - k)%nat by lia.
    rewrite nth_firstn.
    destruct (Nat.ltb_spec (n - k) (S n)); [reflexivity | lia].
  - apply nth_overflow. rewrite length_rev. lia.
Qed.

Lemma back_outputs (ys : list R) (n k : nat) :
  (n ≤ length ys)%nat → back (rev (take n ys) ++ []) k = delayed ys n (S k).
Proof.
  intros Hn. rewrite back_rev_take by exact Hn. unfold delayed.
  destruct (Nat.ltb_spec k n); destruct (Nat.leb_spec (S k) n); try lia;
    [| reflexivity].
  replace (n - 1 - k)%nat with (n - S k)%nat by lia. reflexivity.
Qed.

(** A run that is a recurrence, read at one index. *)
Lemma run_recurrence_at e rate channels step xs :
  run e rate channels xs = Some (difference_equation step [] [] xs) →
  ∃ ys, run e rate channels xs = Some ys ∧ length ys = length xs ∧
        ∀ n, (n < length xs)%nat →
             nth n ys 0 = step (rev (take (S n) xs) ++ [])
                               (rev (take n ys) ++ []).
Proof.
  intros Hrun. eexists. split; [exact Hrun |].
  split; [apply difference_equation_length |].
  intros n Hn. apply difference_equation_nth. exact Hn.
Qed.

Ltac class_step p s Hh Hself :=
  let Hok := fresh "Hok" in
  assert (Hok : processor_ok p) by (split; apply Hh);
  let bx := fresh "bx" in let out := fresh "out" in let q := fresh "q" in
  let by_ := fresh "by_" in let Hpx := fresh "Hpx" in
  let Hproc := fresh "Hproc" in let Hrun := fresh "Hrun" in
  let Hhist := fresh "Hhist" in
  let Hbx := fresh "Hbx" in let Hgx := fresh "Hgx" in
  let Hby := fresh "Hby" in let Hgy := fresh "Hgy" in
  destruct (process_step p s Hok)
    as (bx & out & q & by_ & Hpx & Hproc & _ & _ & _ & Hrun & _ & Hhist);
  destruct (Hhist _ _ Hh) as [[[Hbx Hgx] [Hby Hgy]] _];
  apply push_length in Hpx;
  unfold _process in Hproc; simpl in Hproc, Hgx, Hgy; rewrite Hself in Hproc;
  rewrite ?Hgx, ?Hgy in Hproc by lia;
  simpl in Hproc; injection Hproc as <- _;
  eexists; exact Hrun.

(** *** Delta *)

Lemma Delta_process p hx hy s :
  has_history p hx hy → RTProcessor.self p = ABase →
  length_ (RTProcessor.x p) = 2%Z → length_ (RTProcessor.y p) = 2%Z →
  ∃ q, process p s = Some (Delta_step (s :: hx) hy, q).
Proof.
  intros Hh Hself Hlx Hly. unfold Delta_step, back. class_step p s Hh Hself.
Qed.

Lemma Delta_equation xs : ∀ hx hy,
  difference_equation Delta_step hx hy xs = xs.
Proof.
  induction xs as [| s xs IH]; intros hx hy; simpl; [| rewrite IH]; reflexivity.
Qed.

Lemma Delta_is_identity_run (rate channels : Z) (xs : list R) :
  run EDelta rate channels xs = Some xs.
Proof.
  unfold run, construct, Delta.
  destruct (init_has_history rate channels 1 ltac:(lia))
    as (p & -> & Hh & _ & Hself & Hlx & Hly).
  simpl.
  destruct (static_run Delta_step ABase 2 2 eq_refl Delta_process
              xs p [] [] Hh Hself Hlx Hly) as (q & ->).
  simpl. rewrite Delta_equation. reflexivity.
Qed.

(** The default processor passes every input sequence through unchanged,
    at any rate. *)
Theorem Delta_is_identity (rate channels : Z) (xs : list R) :
  run EDelta rate channels xs = Some xs.
Proof. apply Delta_is_identity_run. Qed.

(** *** Echo *)

Lemma Echo_constructed rate channels :
  (0 < rate)%Z →
  ∃ p, Echo rate channels = Some p ∧ has_history p [] [] ∧
       RTProcessor.self p
       = AEcho 1 0.7 0.5 (1.0 / (1 + 0.7 + 0.5)) (int_frac 3 10 rate) ∧
       length_ (RTProcessor.x p) = (rate + 1)%Z ∧
       length_ (RTProcessor.y p) = (rate + 1)%Z.
Proof.
  intros Hr. unfold Echo.
  destruct (init_has_history rate channels rate ltac:(lia))
    as (p & -> & Hh & Hsf & _ & Hlx & Hly).
  simpl. rewrite Hsf. eexists. split; [reflexivity |]. split; [exact Hh |].
  split; [reflexivity |]. simpl. auto.
Qed.

Lemma Echo_process (N c : Z) p hx hy s :
  (0 ≤ N)%Z → (2 * N < c)%Z →
  has_history p hx hy →
  RTProcessor.self p = AEcho 1 0.7 0.5 (1.0 / (1 + 0.7 + 0.5)) N →
  length_ (RTProcessor.x p) = c → length_ (RTProcessor.y p) = c →
  ∃ q, process p s = Some (Echo_step (Z.to_nat N) (s :: hx) hy, q).
Proof.
  intros HN H2N Hh Hself Hlx Hly. unfold Echo_step, back.
  replace (2 * Z.to_nat N)%nat with (Z.to_nat (2 * N)) by lia.
  class_step p s Hh Hself.
Qed.

Lemma Echo_run rate channels xs :
  (0 < rate)%Z →
  run EEcho rate channels xs
  = Some (difference_equation
            (Echo_step (Z.to_nat (int_frac 3 10 rate))) [] [] xs).
Proof.
  intros Hr. unfold run, construct.
  destruct (Echo_constructed rate channels Hr)
    as (p & -> & Hh & Hself & Hlx & Hly).
  simpl.
  assert (HN : (0 ≤ int_frac 3 10 rate ∧ 2 * int_frac 3 10 rate < rate + 1)%Z).
  { unfold int_frac. rewrite Z.quot_div_nonneg by lia.
    pose proof (Z.div_pos (3 * rate) 10 ltac:(lia) ltac:(lia)).
    pose proof (Z.mul_div_le (3 * rate) 10 ltac:(lia)). lia. }
  destruct (static_run (Echo_step (Z.to_nat (int_frac 3 10 rate)))
              (AEcho 1 0.7 0.5 (1.0 / (1 + 0.7 + 0.5)) (int_frac 3 10 rate))
              (rate + 1) (rate + 1) eq_refl
              (λ p hx hy s, Echo_process (int_frac 3 10 rate) (rate + 1)
                              p hx hy s (proj1 HN) (proj2 HN))
              xs p [] [] Hh Hself Hlx Hly) as (q & ->).
  reflexivity.
Qed.

(** [Echo] is the three-tap filter of its comment: the current sample and
    the samples [N] and [2N] back, weighted 1, 0.7, 0.5 and normalised by
    their sum; both delays fit the one-second buffer. *)
Theorem Echo_recurrence (rate channels : Z) (xs : list R) :
  (0 < rate)%Z →
  let N := Z.to_nat (int_frac 3 10 rate) in
  ∃ ys, run EEcho rate channels xs = Some ys ∧ length ys = length xs ∧
        ∀ n, (n < length xs)%nat →
             nth n ys 0
             = 1.0 / (1 + 0.7 + 0.5)
               * (1 * delayed xs n 0 + 0.7 * delayed xs n N
                  + 0.5 * delayed xs n (2 * N)).
Proof.
  intros Hr N.
  destruct (run_recurrence_at _ _ _ _ _ (Echo_run rate channels xs Hr))
    as (ys & Hrun & Hlen & Hnth).
  exists ys. split; [exact Hrun |]. split; [exact Hlen |].
  intros n Hn. rewrite (Hnth n Hn). unfold Echo_step.
  rewrite !back_inputs by exact Hn. reflexivity.
Qed.

Lemma Echo_recurrence_witness :
  let N := Z.to_nat (int_frac 3 10 10) in
  ∃ ys, run EEcho 10 1 [1; 2; 3; 4; 5; 6; 7] = Some ys ∧
        length ys = length [1; 2; 3; 4; 5; 6; 7] ∧
        ∀ n, (n < length [1; 2; 3; 4; 5; 6; 7]%R)%nat →
             nth n ys 0
             = 1.0 / (1 + 0.7 + 0.5)
               * (1 * delayed [1; 2; 3; 4; 5; 6; 7] n 0
                  + 0.7 * delayed [1; 2; 3; 4; 5; 6; 7] n N
                  + 0.5 * delayed [1; 2; 3; 4; 5; 6; 7] n (2 * N)).
Proof.
  apply (Echo_recurrence 10 1 [1; 2; 3; 4; 5; 6; 7]). lia.
Defined.

Lemma delayed_impulse (len n k : nat) :
  delayed (impulse len) n k = if (n =? k)%nat then 1 else 0.
Proof.
  unfold delayed.
  destruct (Nat.leb_spec k n); destruct (Nat.eqb_spec n k); try lia;
    try reflexivity; rewrite nth_impulse.
  - replace (n - k)%nat with 0%nat by lia. reflexivity.
  - destruct (Nat.eqb_spec (n - k) 0); [lia | reflexivity].
Qed.

(** The impulse response of [Echo] is its three taps, exactly [N] samples
    apart: the normalised weights 1, 0.7 and 0.5 at the indices 0, [N] and
    [2N], and silence elsewhere (for a rate of at least 4, where [N >= 1]). *)
Theorem Echo_impulse_response (rate channels : Z) (len : nat) :
  (4 ≤ rate)%Z →
  let N := Z.to_nat (int_frac 3 10 rate) in
  ∃ ys, run EEcho rate channels (impulse len) = Some ys ∧
        ∀ n, (n ≤ len)%nat →
             nth n ys 0
             = 1.0 / (1 + 0.7 + 0.5)
               * (if (n =? 0)%nat then 1
                  else if (n =? N)%nat then 0.7
                  else if (n =? 2 * N)%nat then 0.5 else 0).
Proof.
  intros Hr N.
  assert (HN : (1 ≤ N)%nat).
  { unfold N, int_frac. rewrite Z.quot_div_nonneg by lia.
    assert (1 ≤ 3 * rate / 10)%Z by (apply Z.div_le_lower_bound; lia). lia. }
  destruct (run_recurrence_at _ _ _ _ _
              (Echo_run rate channels (impulse len) ltac:(lia)))
    as (ys & Hrun & Hlen & Hnth).
  exists ys. split; [exact Hrun |].
  assert (Hil : length (impulse len) = S len)
    by (unfold impulse; simpl; rewrite length_replicate; reflexivity).
  intros n Hn. rewrite Hnth by lia. unfold Echo_step.
  rewrite !back_inputs by lia. fold N.
  rewrite !delayed_impulse.
  destruct (Nat.eqb_spec n 0); destruct (Nat.eqb_spec n N);
    destruct (Nat.eqb_spec n (2 * N)); try lia; lra.
Qed.

Lemma Echo_impulse_response_witness :
  let N := Z.to_nat (int_frac 3 10 10) in
  ∃ ys, run EEcho 10 1 (impulse 8) = Some ys ∧
        ∀ n, (n ≤ 8)%nat →
             nth n ys 0
             = 1.0 / (1 + 0.7 + 0.5)
               * (if (n =? 0)%nat then 1
                  else if (n =? N)%nat then 0.7
                  else if (n =? 2 * N)%nat then 0.5 else 0).
Proof.
  apply (Echo_impulse_response 10 1 8). lia.
Defined.

(** *** Natural echo and reverb *)

Lemma int_frac_le rate num den :
  (0 < rate)%Z → (0 ≤ num ≤ den)%Z → (0 < den)%Z →
  (0 ≤ int_frac num den rate ≤ rate)%Z.
Proof.
  intros Hr Hn Hd. unfold int_frac. rewrite Z.quot_div_nonneg by nia.
  split.
  - apply Z.div_pos; nia.
  - apply Z.div_le_upper_bound; nia.
Qed.

Lemma Natural_Echo_constructed rate channels :
  (0 < rate)%Z →
  ∃ p, Natural_Echo rate channels = Some p ∧ has_history p [] [] ∧
       RTProcessor.self p = ANatural_Echo 0.8 0.7 (int_frac 3 10 rate) ∧
       length_ (RTProcessor.x p) = (rate + 1)%Z ∧
       length_ (RTProcessor.y p) = (rate + 1)%Z.
Proof.
  intros Hr. unfold Natural_Echo.
  destruct (init_has_history rate channels rate ltac:(lia))
    as (p & -> & Hh & Hsf & _ & Hlx & Hly).
  simpl. rewrite Hsf. eexists. split; [reflexivity |]. split; [exact Hh |].
  split; [reflexivity |]. simpl. auto.
Qed.

Lemma Natural_Echo_process (N c : Z) p hx hy s :
  (0 ≤ N < c)%Z → (2 ≤ c)%Z →
  has_history p hx hy →
  RTProcessor.self p = ANatural_Echo 0.8 0.7 N →
  length_ (RTProcessor.x p) = c → length_ (RTProcessor.y p) = c →
  ∃ q, process p s = Some (Natural_Echo_step (Z.to_nat N) (s :: hx) hy, q).
Proof.
  intros HN Hc Hh Hself Hlx Hly. unfold Natural_Echo_step, back.
  class_step p s Hh Hself.
Qed.

Lemma Natural_Echo_run rate channels xs :
  (0 < rate)%Z →
  run ENatural_Echo rate channels xs
  = Some (difference_equation
            (Natural_Echo_step (Z.to_nat (int_frac 3 10 rate))) [] [] xs).
Proof.
  intros Hr. unfold run, construct.
  destruct (Natural_Echo_constructed rate channels Hr)
    as (p & -> & Hh & Hself & Hlx & Hly).
  simpl.
  pose proof (int_frac_le rate 3 10 Hr ltac:(lia) ltac:(lia)) as HN.
  destruct (static_run (Natural_Echo_step (Z.to_nat (int_frac 3 10 rate)))
              (ANatural_Echo 0.8 0.7 (int_frac 3 10 rate))
              (rate + 1) (rate + 1) eq_refl
              (λ p hx hy s, Natural_Echo_process (int_frac 3 10 rate) (rate + 1)
                              p hx hy s ltac:(lia) ltac:(lia))
              xs p [] [] Hh Hself Hlx Hly) as (q & ->).
  reflexivity.
Qed.

(** [Natural_Echo] on every input: the input minus 0.7 times the previous
    input, plus 0.7 times the output two samples back, plus 0.8 * 0.3 times
    the output [N + 1] samples back (the feedback taps sit one sample
    further back than the offsets passed to [y.get]). *)
Theorem Natural_Echo_recurrence (rate channels : Z) (xs : list R) :
  (0 < rate)%Z →
  let N := Z.to_nat (int_frac 3 10 rate) in
  ∃ ys, run ENatural_Echo rate channels xs = Some ys ∧
        length ys = length xs ∧
        ∀ n, (n < length xs)%nat →
             nth n ys 0
             = delayed xs n 0 - 0.7 * delayed xs n 1 + 0.7 * delayed ys n 2
               + 0.8 * (1 - 0.7) * delayed ys n (S N).
Proof.
  intros Hr N.
  destruct (run_recurrence_at _ _ _ _ _ (Natural_Echo_run rate channels xs Hr))
    as (ys & Hrun & Hlen & Hnth).
  exists ys. split; [exact Hrun |]. split; [exact Hlen |].
  intros n Hn. rewrite (Hnth n Hn). unfold Natural_Echo_step.
  rewrite !back_inputs by exact Hn.
  rewrite !back_outputs by lia. reflexivity.
Qed.

Lemma Natural_Echo_recurrence_witness :
  let N := Z.to_nat (int_frac 3 10 10) in
  ∃ ys, run ENatural_Echo 10 1 [1; 2; 3; 4; 5; 6] = Some ys ∧
        length ys = length [1; 2; 3; 4; 5; 6] ∧
        ∀ n, (n < length [1; 2; 3; 4; 5; 6]%R)%nat →
             nth n ys 0
             = delayed [1; 2; 3; 4; 5; 6] n 0
               - 0.7 * delayed [1; 2; 3; 4; 5; 6] n 1 + 0.7 * delayed ys n 2
               + 0.8 * (1 - 0.7) * delayed ys n (S N).
Proof.
  apply (Natural_Echo_recurrence 10 1 [1; 2; 3; 4; 5; 6]). lia.
Defined.

Lemma Reverb_constructed rate channels :
  (0 < rate)%Z →
  ∃ p, Reverb rate channels = Some p ∧ has_history p [] [] ∧
       RTProcessor.self p = AReverb 0.8 0.5 (int_frac 2 100 rate) ∧
       length_ (RTProcessor.x p) = (rate + 1)%Z ∧
       length_ (RTProcessor.y p) = (rate + 1)%Z.
Proof.
  intros Hr. unfold Reverb.
  destruct (init_has_history rate channels rate ltac:(lia))
    as (p & -> & Hh & Hsf & _ & Hlx & Hly).
  simpl. rewrite Hsf. eexists. split; [reflexivity |]. split; [exact Hh |].
  split; [reflexivity |]. simpl. auto.
Qed.

Lemma Reverb_process (N c : Z) p hx hy s :
  (0 ≤ N < c)%Z →
  has_history p hx hy →
  RTProcessor.self p = AReverb 0.8 0.5 N →
  length_ (RTProcessor.x p) = c → length_ (RTProcessor.y p) = c →
  ∃ q, process p s = Some (Reverb_step (Z.to_nat N) (s :: hx) hy, q).
Proof.
  intros HN Hh Hself Hlx Hly. unfold Reverb_step, back.
  class_step p s Hh Hself.
Qed.

Lemma Reverb_run rate channels xs :
  (0 < rate)%Z →
  run EReverb rate channels xs
  = Some (difference_equation
            (Reverb_step (Z.to_nat (int_frac 2 100 rate))) [] [] xs).
Proof.
  intros Hr. unfold run, construct.
  destruct (Reverb_constructed rate channels Hr)
    as (p & -> & Hh & Hself & Hlx & Hly).
  simpl.
  pose proof (int_frac_le rate 2 100 Hr ltac:(lia) ltac:(lia)) as HN.
  destruct (static_run (Reverb_step (Z.to_nat (int_frac 2 100 rate)))
              (AReverb 0.8 0.5 (int_frac 2 100 rate))
              (rate + 1) (rate + 1) eq_refl
              (λ p hx hy s, Reverb_process (int_frac 2 100 rate) (rate + 1)
                              p hx hy s ltac:(lia))
              xs p [] [] Hh Hself Hlx Hly) as (q & ->).
  reflexivity.
Qed.

(** [Reverb] on every input: half of (minus the input, plus the input [N]
    samples back, plus 0.8 times the output [N + 1] samples back), with
    [N = int(0.02 * SF)]. *)
Theorem Reverb_recurrence (rate channels : Z) (xs : list R) :
  (0 < rate)%Z →
  let N := Z.to_nat (int_frac 2 100 rate) in
  ∃ ys, run EReverb rate channels xs = Some ys ∧ length ys = length xs ∧
        ∀ n, (n < length xs)%nat →
             nth n ys 0
             = 0.5 * (- delayed xs n 0 + delayed xs n N
                      + 0.8 * delayed ys n (S N)).
Proof.
  intros Hr N.
  destruct (run_recurrence_at _ _ _ _ _ (Reverb_run rate channels xs Hr))
    as (ys & Hrun & Hlen & Hnth).
  exists ys. split; [exact Hrun |]. split; [exact Hlen |].
  intros n Hn. rewrite (Hnth n Hn). unfold Reverb_step.
  rewrite !back_inputs by exact Hn.
  rewrite !back_outputs by lia. reflexivity.
Qed.

Lemma Reverb_recurrence_witness :
  let N := Z.to_nat (int_frac 2 100 100) in
  ∃ ys, run EReverb 100 1 [1; 2; 3; 4; 5] = Some ys ∧
        length ys = length [1; 2; 3; 4; 5] ∧
        ∀ n, (n < length [1; 2; 3; 4; 5]%R)%nat →
             nth n ys 0
             = 0.5 * (- delayed [1; 2; 3; 4; 5] n 0
                      + delayed [1; 2; 3; 4; 5] n N
                      + 0.8 * delayed ys n (S N)).
Proof.
  apply (Reverb_recurrence 100 1 [1; 2; 3; 4; 5]). lia.
Defined.

Lemma Reverb_zero_delay_silent xs : ∀ hx hy,
  all_zero hy →
  difference_equation (Reverb_step 0) hx hy xs = replicate (length xs) 0.
Proof.
  induction xs as [| s xs IH]; intros hx hy Hz; simpl; [reflexivity |].
  assert (Hout : Reverb_step 0 (s :: hx) hy = 0).
  { unfold Reverb_step, back. rewrite (nth_all_zero hy 0 Hz). simpl. lra. }
  rewrite Hout. f_equal. apply IH. constructor; auto.
Qed.

(** Below 50 samples per second the delay [int(0.02 * SF)] is 0, the two
    input taps cancel, and [Reverb] answers every input with silence. *)
Theorem Reverb_silent_below_50 (rate channels : Z) (xs : list R) :
  (0 < rate < 50)%Z →
  run EReverb rate channels xs = Some (replicate (length xs) 0).
Proof.
  intros Hr. rewrite Reverb_run by lia.
  assert (HN : int_frac 2 100 rate = 0%Z).
  { unfold int_frac. rewrite Z.quot_div_nonneg by lia.
    apply Z.div_small. lia. }
  rewrite HN. change (Z.to_nat 0) with 0%nat.
  rewrite Reverb_zero_delay_silent by constructor. reflexivity.
Qed.

Lemma Reverb_silent_below_50_witness :
  run EReverb 49 1 [1; 2; 3] = Some (replicate (length [1; 2; 3]) 0).
Proof.
  apply (Reverb_silent_below_50 49 1 [1; 2; 3]). lia.
Defined.

(** *** Biquad and recursive echo, at every index *)

(** [Biquad] on every input: the feed-forward taps are the inputs one and
    two samples back, the feedback taps the outputs two and three samples
    back. *)
Theorem Biquad_recurrence (rate channels : Z) (xs : list R) :
  ∃ ys, run EBiquad rate channels xs = Some ys ∧ length ys = length xs ∧
        ∀ n, (n < length xs)%nat →
             nth n ys 0
             = Biquad_norm
               * (delayed xs n 0 + Biquad_b1 * delayed xs n 1
                  + Biquad_b2 * delayed xs n 2
                  - Biquad_a1 * delayed ys n 2 - Biquad_a2 * delayed ys n 3).
Proof.
  destruct (run_recurrence_at _ _ _ _ _ (Biquad_run rate channels xs))
    as (ys & Hrun & Hlen & Hnth).
  exists ys. split; [exact Hrun |]. split; [exact Hlen |].
  intros n Hn. rewrite (Hnth n Hn). unfold Biquad_code_step.
  rewrite !back_inputs by exact Hn.
  rewrite !back_outputs by lia. reflexivity.
Qed.

(** [Recursive_Echo] on every input: [norm] times (the input plus [a]
    times the output [N + 1] samples back). *)
Theorem Recursive_Echo_recurrence (rate channels : Z) (xs : list R) :
  (0 < rate)%Z →
  let N := Z.to_nat (int_frac 3 10 rate) in
  ∃ ys, run ERecursive_Echo rate channels xs = Some ys ∧
        length ys = length xs ∧
        ∀ n, (n < length xs)%nat →
             nth n ys 0
             = Recursive_Echo_norm
               * (delayed xs n 0 + Recursive_Echo_a * delayed ys n (S N)).
Proof.
  intros Hr N.
  destruct (run_recurrence_at _ _ _ _ _ (Recursive_Echo_run rate channels xs Hr))
    as (ys & Hrun & Hlen & Hnth).
  exists ys. split; [exact Hrun |]. split; [exact Hlen |].
  intros n Hn. rewrite (Hnth n Hn). unfold Recursive_Echo_step.
  rewrite !back_inputs by exact Hn.
  rewrite !back_outputs by lia. reflexivity.
Qed.

Lemma Recursive_Echo_recurrence_witness :
  let N := Z.to_nat (int_frac 3 10 10) in
  ∃ ys, run ERecursive_Echo 10 1 [1; 2; 3; 4; 5; 6] = Some ys ∧
        length ys = length [1; 2; 3; 4; 5; 6] ∧
        ∀ n, (n < length [1; 2; 3; 4; 5; 6]%R)%nat →
             nth n ys 0
             = Recursive_Echo_norm
               * (delayed [1; 2; 3; 4; 5; 6] n 0
                  + Recursive_Echo_a * delayed ys n (S N)).
Proof.
  apply (Recursive_Echo_recurrence 10 1 [1; 2; 3; 4; 5; 6]). lia.
Defined.

End ClassRecurrences.

(** ** Fuzz and Tremolo as gains on the current sample *)

Section Memoryless.

Lemma pointwise_equation (f : R → R) xs : ∀ hx hy,
  difference_equation (λ hx _, f (back hx 0)) hx hy xs = map f xs.
Proof.
  induction xs as [| s xs IH]; intros hx hy; simpl; [| rewrite IH]; reflexivity.
Qed.

Lemma Fuzz_curve_code (s : R) :
  5 * (let y1 := if Rlt_dec Fuzz_limit s then Fuzz_limit else s in
       if Rlt_dec y1 (- Fuzz_limit) then - Fuzz_limit else y1)
  = Fuzz_curve s.
Proof.
  assert (Hpos : 0 < Fuzz_limit) by (unfold Fuzz_limit; lra).
  unfold Fuzz_curve, Rmin, Rmax. simpl.
  destruct (Rlt_dec Fuzz_limit s); destruct (Rle_dec Fuzz_limit s); try lra;
    repeat match goal with
    | |- context [Rlt_dec ?a ?b] => destruct (Rlt_dec a b)
    | |- context [Rle_dec ?a ?b] => destruct (Rle_dec a b)
    end; lra.
Qed.

Lemma Fuzz_curve_bounded (s : R) : Rabs (Fuzz_curve s) <= 5 * Fuzz_limit.
Proof.
  assert (Hpos : 0 < Fuzz_limit) by (unfold Fuzz_limit; lra).
  unfold Fuzz_curve, Rmin, Rmax.
  destruct (Rle_dec Fuzz_limit s);
    repeat match goal with
    | |- context [Rle_dec ?a ?b] => destruct (Rle_dec a b)
    end;
    apply Rabs_le; lra.
Qed.

Lemma Fuzz_run rate channels xs :
  run EFuzz rate channels xs = Some (map Fuzz_curve xs).
Proof.
  unfold run, construct, Fuzz.
  destruct (init_has_history rate channels 1 ltac:(lia))
    as (p0 & -> & Hh0 & _ & _ & Hlx & Hly).
  simpl.
  set (p := RTProcessor.set_self p0 (AFuzz 0.005 5 (2147483647 * 0.005))).
  assert (Hstep : ∀ p' hx hy s,
             has_history p' hx hy →
             RTProcessor.self p' = AFuzz 0.005 5 (2147483647 * 0.005) →
             length_ (RTProcessor.x p') = 2%Z → length_ (RTProcessor.y p') = 2%Z →
             ∃ q, process p' s = Some (Fuzz_curve (back (s :: hx) 0), q)).
  { intros p' hx hy s Hh' Hself' _ _.
    destruct (Fuzz_process p' hx hy _ _ _ s Hh' Hself') as (q & Hq).
    exists q. rewrite Hq. unfold back. simpl nth.
    rewrite <- Fuzz_curve_code. reflexivity. }
  destruct (static_run (λ hx _, Fuzz_curve (back hx 0))
              (AFuzz 0.005 5 (2147483647 * 0.005)) 2 2 eq_refl Hstep
              xs p [] [] Hh0 eq_refl Hlx Hly) as (q & ->).
  simpl. rewrite pointwise_equation. reflexivity.
Qed.

(** [Fuzz] has no memory: each output is the clamp of the current sample
    to [-limit, limit], times 5, whatever came before. *)
Theorem Fuzz_is_pointwise_clamp (rate channels : Z) (xs : list R) :
  run EFuzz rate channels xs
  = Some (map (λ s, 5 * Rmax (- (2147483647 * 0.005))
                          (Rmin (2147483647 * 0.005) s)) xs).
Proof. apply Fuzz_run. Qed.

(** No output of [Fuzz] exceeds [5 * limit] in magnitude. *)
Theorem Fuzz_output_bounded (rate channels : Z) (xs : list R) :
  ∃ ys, run EFuzz rate channels xs = Some ys ∧
        Forall (λ y, Rabs y <= 5 * (2147483647 * 0.005)) ys.
Proof.
  exists (map Fuzz_curve xs). split; [apply Fuzz_run |].
  apply Forall_map. apply Forall_forall. intros s _.
  apply Fuzz_curve_bounded.
Qed.

(** *** Tremolo *)

Lemma Tremolo_gain_bounds rate n : 1 - 0.9 <= Tremolo_gain rate n <= 1.
Proof.
  unfold Tremolo_gain.
  pose proof (COS_bound (INR (n + 1) * Tremolo_phi rate)). lra.
Qed.

Lemma Tremolo_outputs rate channels xs :
  rate ≠ 0%Z →
  ∃ ys, run ETremolo rate channels xs = Some ys ∧
        ∀ n, (n < length xs)%nat →
             nth n ys 0 = Tremolo_gain rate n * nth n xs 0.
Proof.
  intros Hr. unfold run, construct.
  destruct (Tremolo_constructed rate channels Hr) as (p & -> & Hh & Hself).
  simpl.
  destruct (Tremolo_run_nth _ _ xs p [] [] 0 Hh Hself) as (ys & q & -> & Hnth).
  simpl. exists ys. split; [reflexivity |].
  intros n Hn. rewrite Hnth by exact Hn. unfold Tremolo_gain.
  replace (0 + INR (S n) * Tremolo_phi rate)
    with (INR (n + 1) * Tremolo_phi rate)
    by (rewrite Nat.add_1_r; ring).
  f_equal. lra.
Qed.

End Memoryless.

(** ** Wah as a time-varying recurrence *)

Section WahFilter.

Lemma difference_equation_from_length step xs : ∀ n0 hx hy,
  length (difference_equation_from step n0 hx hy xs) = length xs.
Proof.
  induction xs as [| s xs IH]; intros n0 hx hy; simpl; [| rewrite IH];
    reflexivity.
Qed.

Lemma difference_equation_from_nth step xs : ∀ n0 hx hy n,
  (n < length xs)%nat →
  nth n (difference_equation_from step n0 hx hy xs) 0
  = step (n0 + n)%nat (rev (take (S n) xs) ++ hx)
         (rev (take n (difference_equation_from step n0 hx hy xs)) ++ hy).
Proof.
  induction xs as [| s xs IH]; intros n0 hx hy n Hn; simpl in Hn; [lia |].
  destruct n as [| n]; simpl.
  - rewrite Nat.add_0_r. reflexivity.
  - rewrite IH by lia. rewrite <- !app_assoc.
    replace (S n0 + n)%nat with (n0 + S n)%nat by lia. reflexivity.
Qed.

Lemma Wah_process_value rate p hx hy n ob1 oa1 omega s :
  has_history p hx hy →
  length_ (RTProcessor.x p) = 3%Z → length_ (RTProcessor.y p) = 3%Z →
  omega = INR n * Wah_phi rate →
  RTProcessor.self p
  = AWah (0.3 * PI) (Wah_phi rate) omega 0.99 (0.04 * PI) 0.9 (0.06 * PI)
      (0.9 * 0.9) (0.99 * 0.99) ob1 oa1 →
  ∃ q ob1' oa1' omega',
    process p s = Some (Wah_step rate n (s :: hx) hy, q) ∧
    has_history q (s :: hx) (Wah_step rate n (s :: hx) hy :: hy) ∧
    length_ (RTProcessor.x q) = 3%Z ∧ length_ (RTProcessor.y q) = 3%Z ∧
    omega' = INR (S n) * Wah_phi rate ∧
    RTProcessor.self q
    = AWah (0.3 * PI) (Wah_phi rate) omega' 0.99 (0.04 * PI) 0.9 (0.06 * PI)
        (0.9 * 0.9) (0.99 * 0.99) ob1' oa1'.
Proof.
  intros Hh Hlx Hly Homega Hself.
  assert (Hok : processor_ok p) by (split; apply Hh).
  destruct (process_step p s Hok)
    as (bx & out & q & by_ & Hpx & Hproc & _ & _ & _ & Hrun & _ & Hhist).
  destruct (Hhist hx hy Hh) as [[[Hbx Hgx] [Hby Hgy]] Hq].
  destruct (process_lengths p s _ _ Hok Hrun) as [Hlx' Hly'].
  apply push_length in Hpx.
  unfold _process in Hproc. simpl in Hproc, Hgx, Hgy. rewrite Hself in Hproc.
  rewrite !Hgx, !Hgy in Hproc by lia.
  simpl in Hproc. injection Hproc as Hout Hq'.
  assert (Hval : out = Wah_step rate n (s :: hx) hy).
  { rewrite <- Hout. unfold Wah_step, Wah_b1, Wah_a1, Wah_deviation, back.
    rewrite Homega. reflexivity. }
  rewrite Hval in Hrun, Hq.
  eexists. eexists. eexists. exists (omega + Wah_phi rate).
  split; [exact Hrun |]. split; [exact Hq |].
  split; [congruence |]. split; [congruence |].
  split; [rewrite Homega, S_INR; ring |].
  simpl. rewrite <- Hq'. reflexivity.
Qed.

Lemma Wah_run_from rate xs : ∀ p hx hy n ob1 oa1 omega,
  has_history p hx hy →
  length_ (RTProcessor.x p) = 3%Z → length_ (RTProcessor.y p) = 3%Z →
  omega = INR n * Wah_phi rate →
  RTProcessor.self p
  = AWah (0.3 * PI) (Wah_phi rate) omega 0.99 (0.04 * PI) 0.9 (0.06 * PI)
      (0.9 * 0.9) (0.99 * 0.99) ob1 oa1 →
  ∃ q, process_all p xs
       = Some (difference_equation_from (Wah_step rate) n hx hy xs, q).
Proof.
  induction xs as [| s xs IH]; intros p hx hy n ob1 oa1 omega Hh Hlx Hly Hom Hself.
  - simpl. eauto.
  - destruct (Wah_process_value rate p hx hy n ob1 oa1 omega s Hh Hlx Hly Hom Hself)
      as (q & ob1' & oa1' & omega' & Hrun & Hq & Hlx' & Hly' & Hom' & Hself').
    destruct (IH q _ _ (S n) ob1' oa1' omega' Hq Hlx' Hly' Hom' Hself')
      as (r & Hall).
    exists r. simpl. rewrite Hrun. simpl. rewrite Hall. reflexivity.
Qed.

(** [Wah] on every input: a second-order filter whose middle coefficients
    follow the oscillator, read at phase [n * phi] for the sample of index
    [n]; the feedback taps are the outputs two and three samples back. *)
Theorem Wah_recurrence (rate channels : Z) (xs : list R) :
  rate ≠ 0%Z →
  ∃ ys, run EWah rate channels xs = Some ys ∧ length ys = length xs ∧
        ∀ n, (n < length xs)%nat →
             nth n ys 0
             = 0.3 * (delayed xs n 0 + Wah_b1 rate n * delayed xs n 1
                      + 0.9 * 0.9 * delayed xs n 2
                      - Wah_a1 rate n * delayed ys n 2
                      - 0.99 * 0.99 * delayed ys n 3).
Proof.
  intros Hr. unfold run, construct.
  destruct (Wah_constructed rate channels Hr)
    as (p & -> & Hh & Hlx & Hly & Hself).
  simpl.
  destruct (Wah_run_from rate xs p [] [] 0%nat None None 0.0 Hh Hlx Hly)
    as (q & ->); [simpl; lra | exact Hself |].
  simpl. eexists. split; [reflexivity |].
  split; [apply difference_equation_from_length |].
  intros n Hn. rewrite difference_equation_from_nth by exact Hn.
  unfold Wah_step. simpl (0 + n)%nat.
  rewrite !back_inputs by exact Hn.
  rewrite !back_outputs by (rewrite difference_equation_from_length; lia).
  reflexivity.
Qed.

Lemma Wah_recurrence_witness :
  ∃ ys, run EWah 16000 1 [1; 2; 3; 4] = Some ys ∧
        length ys = length [1; 2; 3; 4]%R ∧
        ∀ n, (n < length [1; 2; 3; 4]%R)%nat →
             nth n ys 0
             = 0.3 * (delayed [1; 2; 3; 4] n 0
                      + Wah_b1 16000 n * delayed [1; 2; 3; 4] n 1
                      + 0.9 * 0.9 * delayed [1; 2; 3; 4] n 2
                      - Wah_a1 16000 n * delayed ys n 2
                      - 0.99 * 0.99 * delayed ys n 3).
Proof.
  apply (Wah_recurrence 16000 1 [1; 2; 3; 4]). lia.
Defined.

End WahFilter.

(** ** The control loop: no crash, clean swap *)

Section ControlExtras.

Local Open Scope Z_scope.

Lemma choices_inside key name :
  choices !! key = Some name →
  0 ≤ key ≤ 8 ∧
  ∃ e, menu !! Z.to_nat key = Some e ∧ getattr name = Some (construct e).
Proof.
  intros Hname.
  assert (Hin : 0 ≤ key ≤ 8).
  { destruct (Z_lt_dec key 0) as [Hlt | Hge].
    - rewrite choices_outside in Hname by lia. discriminate Hname.
    - destruct (Z_lt_dec 8 key) as [Hgt | Hle]; [| lia].
      rewrite choices_outside in Hname by lia. discriminate Hname. }
  split; [exact Hin |].
  destruct (lookup_lt_is_Some_2 menu (Z.to_nat key)) as [e He].
  { change (length menu) with 9%nat. lia. }
  destruct (menu_entry _ _ He) as (name' & Hname' & Hnew).
  rewrite Z2Nat.id in Hname' by lia.
  exists e. split; [exact He |]. congruence.
Qed.

(** Once a key code is there, nothing raises past the [except]: every name
    in the menu resolves to a class of the module, and every class
    constructs at the demo's rate. *)
Lemma control_step_no_crash (s : session) (polled : Z) :
  control_step s polled ≠ Crash.
Proof.
  unfold control_step.
  destruct (polled =? ord "q"); [discriminate |].
  destruct (choices !! (polled - ord "0")) as [name |] eqn:Hname;
    [| discriminate].
  destruct (choices_inside _ _ Hname) as (_ & e & _ & ->).
  destruct (construct_has_history e RATE CHANNELS ltac:(reflexivity))
    as (p & -> & _).
  discriminate.
Qed.

(** An iteration of the control loop ends in an uncaught exception exactly
    when [os.name] is not ['nt']: there [poll_keyboard] reads the unbound
    global [WINDOWS]; on Windows no key and no state make it raise. *)
Theorem loop_iteration_crashes_iff_not_nt (os_name : string)
    (pending : option ascii) (s : session) :
  loop_iteration os_name pending s = Crash ↔ os_name ≠ "nt"%string.
Proof.
  unfold loop_iteration, poll_keyboard, WINDOWS.
  destruct (String.eqb_spec os_name "nt") as [-> | Hne]; split.
  - intros Hcrash. exfalso. revert Hcrash. apply control_step_no_crash.
  - intros Hne. contradiction.
  - intros _. exact Hne.
  - intros _. reflexivity.
Qed.

(** A selection discards the running processor: the samples processed
    after it give exactly the outputs of a freshly constructed instance of
    the chosen class, whatever the slot held before (also when the class
    chosen is the one already running). *)
Theorem swap_starts_fresh (s : session) (polled : Z) (xs : list R) :
  polled ≠ ord "q" → 0 ≤ polled - ord "0" ≤ 8 →
  ∃ e s', menu !! Z.to_nat (polled - ord "0") = Some e ∧
          control_step s polled = Continue s' ∧
          fst <$> process_all (processor s') xs = run e RATE CHANNELS xs.
Proof.
  intros Hq Hin.
  destruct (lookup_lt_is_Some_2 menu (Z.to_nat (polled - ord "0"))) as [e He].
  { change (length menu) with 9%nat. lia. }
  destruct (menu_entry _ _ He) as (name & Hname & Hnew).
  rewrite Z2Nat.id in Hname by lia.
  destruct (construct_has_history e RATE CHANNELS ltac:(reflexivity))
    as (p & Hp & _).
  exists e, (mkSession p (constructed s) (S (constructed s))).
  split; [exact He |].
  split; [apply (control_step_select s polled name (construct e)); assumption |].
  simpl. unfold run. rewrite Hp. reflexivity.
Qed.

Lemma swap_starts_fresh_witness :
  let s := mkSession
             (RTProcessor.mk 16000 (mkCircularBuffer 2 [1; 0]%R 0)
                (mkCircularBuffer 2 [1; 0]%R 0) ABase) 0 1 in
  ∃ e s', menu !! Z.to_nat (54 - ord "0") = Some e ∧
          control_step s 54 = Continue s' ∧
          fst <$> process_all (processor s') [1; 2]%R
          = run e RATE CHANNELS [1; 2]%R.
Proof.
  intros s. apply (swap_starts_fresh s 54 [1; 2]%R).
  - rewrite ord_q. lia.
  - rewrite ord_0. lia.
Defined.

End ControlExtras.

(** ** The audio callback *)

Section CallbackExtras.

Variable cast : R → Z.

Lemma callback_process_all block : ∀ p,
  callback cast p block
  = match process_all p (map IZR block) with
    | Some (ys, q) => Some (map (np_int32 cast) ys, q)
    | None => None
    end.
Proof.
  induction block as [| a block IH]; intros p; simpl; [reflexivity |].
  destruct (process p (IZR a)) as [[out q] |]; simpl; [| reflexivity].
  rewrite IH.
  destruct (process_all q (map IZR block)) as [[ys r] |]; reflexivity.
Qed.

Lemma np_int32_IZR (a : Z) : is_int32 a → np_int32 cast (IZR a) = a.
Proof.
  intros [Hlo Hhi]. unfold np_int32.
  destruct (Rlt_dec (-2147483649) (IZR a)) as [_ | Hn];
    [| exfalso; apply Hn; apply IZR_lt; lia].
  destruct (Rlt_dec (IZR a) 2147483648) as [_ | Hn];
    [| exfalso; apply Hn; apply IZR_lt; lia].
  destruct (Rle_dec 0 (IZR a)).
  - symmetry. apply Int_part_spec. lra.
  - rewrite <- opp_IZR.
    rewrite <- (Int_part_spec (IZR (- a)) (- a)) by lra. lia.
Qed.

(** With the default processor the callback returns the block it was
    given, for every block of int32 samples. *)
Theorem callback_Delta_passes_through (rate channels : Z) (block : list Z) :
  Forall is_int32 block →
  ∃ p q, Delta rate channels = Some p ∧ callback cast p block = Some (block, q).
Proof.
  intros Hblock.
  pose proof (Delta_is_identity_run rate channels (map IZR block)) as Hrun.
  unfold run, construct in Hrun.
  destruct (Delta rate channels) as [p |]; simpl in Hrun; [| discriminate Hrun].
  exists p.
  rewrite callback_process_all.
  destruct (process_all p (map IZR block)) as [[ys q] |];
    simpl in Hrun; [| discriminate Hrun].
  injection Hrun as ->. exists q. split; [reflexivity |].
  f_equal. f_equal.
  induction Hblock as [| a block Ha _ IH]; simpl; [reflexivity |].
  rewrite np_int32_IZR by exact Ha. rewrite IH. reflexivity.
Qed.



End CallbackExtras.

Lemma callback_Delta_passes_through_witness :
  ∃ p q, Delta 16000 1 = Some p ∧
         callback (λ _, (-2147483648)%Z) p [5; -7; 0]%Z
         = Some ([5; -7; 0]%Z, q).
Proof.
  apply (callback_Delta_passes_through (λ _, (-2147483648)%Z) 16000 1).
  repeat constructor; unfold is_int32; lia.
Defined.

Section NoOverflow.

Lemma process_all_length xs : ∀ p ys q,
  process_all p xs = Some (ys, q) → length ys = length xs.
Proof.
  induction xs as [| s xs IH]; intros p ys q Hp; simpl in Hp.
  - injection Hp as <- _. reflexivity.
  - destruct (process p s) as [[o r] |]; simpl in Hp; [| discriminate Hp].
    destruct (process_all r xs) as [[os t] |] eqn:E; simpl in Hp;
      [| discriminate Hp].
    injection Hp as <- _. simpl. f_equal. apply (IH r os t E).
Qed.

Lemma run_length e rate channels xs ys :
  run e rate channels xs = Some ys → length ys = length xs.
Proof.
  unfold run. destruct (construct e rate channels) as [p |]; simpl;
    [| discriminate].
  destruct (process_all p xs) as [[zs q] |] eqn:E; simpl; [| discriminate].
  intros [= <-]. apply (process_all_length xs p zs q E).
Qed.

Lemma Forall_from_nth (P : R → Prop) (l : list R) :
  (∀ n, (n < length l)%nat → P (nth n l 0)) → Forall P l.
Proof.
  intros H. apply Forall_lookup. intros i v Hv.
  rewrite <- (nth_lookup_Some l i 0 v Hv). apply H.
  apply (lookup_lt_Some l i v Hv).
Qed.

Lemma nth_from_Forall (P : R → Prop) (l : list R) n :
  Forall P l → (n < length l)%nat → P (nth n l 0).
Proof.
  intros H Hn. destruct (lookup_lt_is_Some_2 l n Hn) as [v Hv].
  rewrite (nth_lookup_Some l n 0 v Hv).
  apply (proj1 (Forall_lookup P l) H n v Hv).
Qed.

Lemma delayed_between (lo hi : R) (xs : list R) n k :
  lo <= 0 <= hi → Forall (λ v, lo <= v <= hi) xs → (n < length xs)%nat →
  lo <= delayed xs n k <= hi.
Proof.
  intros H0 Hxs Hn. unfold delayed.
  destruct (Nat.leb_spec k n); [| exact H0].
  apply (nth_from_Forall (λ v, lo <= v <= hi)); [exact Hxs | lia].
Qed.

Lemma samples_between (block : list Z) :
  Forall is_int32 block →
  Forall (λ v, -2147483648 <= v <= 2147483647) (map IZR block).
Proof.
  intros H. induction H as [| a block [Hlo Hhi] _ IH]; simpl; constructor;
    [| exact IH].
  split; apply IZR_le; lia.
Qed.

Lemma np_int32_in_range c1 c2 r :
  int32_castable r → np_int32 c1 r = np_int32 c2 r.
Proof.
  intros [Hlo Hhi]. unfold np_int32.
  destruct (Rlt_dec (-2147483649) r); [| lra].
  destruct (Rlt_dec r 2147483648); [reflexivity | lra].
Qed.

Lemma map_np_int32_in_range c1 c2 (ys : list R) :
  Forall int32_castable ys → map (np_int32 c1) ys = map (np_int32 c2) ys.
Proof.
  intros Hys. induction Hys as [| y ys Hy _ IH]; simpl; [reflexivity |].
  rewrite (np_int32_in_range c1 c2 y Hy), IH. reflexivity.
Qed.

Lemma castable_outputs e rate channels (block : list Z) :
  e = EDelta ∨ e = EEcho ∨ e = EFuzz ∨ e = ETremolo →
  (0 < rate)%Z → Forall is_int32 block →
  ∃ ys, run e rate channels (map IZR block) = Some ys ∧
        Forall int32_castable ys.
Proof.
  intros He Hr Hblock.
  pose proof (samples_between block Hblock) as Hxs.
  set (xs := map IZR block) in *.
  destruct He as [-> | [-> | [-> | ->]]].
  - exists xs. split; [apply Delta_is_identity_run |].
    eapply Forall_impl; [exact Hxs |]. intros v Hv. unfold int32_castable. lra.
  - destruct (run_recurrence_at _ _ _ _ _ (Echo_run rate channels xs Hr))
      as (ys & Hrun & Hlen & Hnth).
    exists ys. split; [exact Hrun |].
    apply Forall_from_nth. intros n Hn. rewrite Hlen in Hn.
    rewrite (Hnth n Hn). unfold Echo_step.
    rewrite !back_inputs by exact Hn.
    pose proof (delayed_between (-2147483648) 2147483647 xs n 0 ltac:(lra) Hxs Hn).
    pose proof (delayed_between (-2147483648) 2147483647 xs n (Z.to_nat (int_frac 3 10 rate))
                  ltac:(lra) Hxs Hn).
    pose proof (delayed_between (-2147483648) 2147483647 xs n (2 * Z.to_nat (int_frac 3 10 rate))
                  ltac:(lra) Hxs Hn).
    unfold int32_castable. lra.
  - exists (map Fuzz_curve xs). split; [apply Fuzz_run |].
    apply Forall_map. apply Forall_forall. intros v _.
    pose proof (Fuzz_curve_bounded v) as Hb.
    assert (Hlim : 5 * Fuzz_limit < 2147483648) by (unfold Fuzz_limit; lra).
    unfold int32_castable.
    unfold Rabs in Hb. destruct (Rcase_abs (Fuzz_curve v)); lra.
  - destruct (Tremolo_outputs rate channels xs ltac:(lia)) as (ys & Hrun & Hnth).
    exists ys. split; [exact Hrun |].
    pose proof (run_length _ _ _ _ _ Hrun) as Hlen.
    apply Forall_from_nth. intros n Hn. rewrite Hlen in Hn.
    rewrite (Hnth n Hn).
    pose proof (Tremolo_gain_bounds rate n) as Hg.
    pose proof (nth_from_Forall _ xs n Hxs Hn) as Hx. simpl in Hx.
    unfold int32_castable. nra.
Qed.

(** For [Delta], [Echo], [Fuzz] and [Tremolo], on int32 input, every value
    the callback converts back lies in the int32 range: the block returned
    does not depend on what the conversion does outside that range. *)
Theorem callback_never_overflows (e : effect) (rate channels : Z)
    (block : list Z) (cast1 cast2 : R → Z) :
  e = EDelta ∨ e = EEcho ∨ e = EFuzz ∨ e = ETremolo →
  (0 < rate)%Z → Forall is_int32 block →
  ∃ p ys, construct e rate channels = Some p ∧
          run e rate channels (map IZR block) = Some ys ∧
          Forall int32_castable ys ∧
          is_Some (callback cast1 p block) ∧
          callback cast1 p block = callback cast2 p block.
Proof.
  intros He Hr Hblock.
  destruct (castable_outputs e rate channels block He Hr Hblock)
    as (ys & Hrun & Hys).
  pose proof Hrun as Hrun'. unfold run in Hrun'.
  destruct (construct e rate channels) as [p |]; simpl in Hrun';
    [| discriminate Hrun'].
  exists p, ys. split; [reflexivity |]. split; [exact Hrun |].
  split; [exact Hys |].
  rewrite !callback_process_all.
  destruct (process_all p (map IZR block)) as [[zs q] |]; simpl in Hrun';
    [| discriminate Hrun'].
  injection Hrun' as ->. split; [eexists; reflexivity |].
  f_equal. f_equal. apply map_np_int32_in_range. exact Hys.
Qed.

Lemma callback_never_overflows_witness :
  ∃ p ys, construct EEcho 10 1 = Some p ∧
          run EEcho 10 1 (map IZR [2147483647; -2147483648; 5]%Z) = Some ys ∧
          Forall int32_castable ys ∧
          is_Some (callback (λ _, 0%Z) p [2147483647; -2147483648; 5]%Z) ∧
          callback (λ _, 0%Z) p [2147483647; -2147483648; 5]%Z
          = callback (λ _, (-2147483648)%Z) p [2147483647; -2147483648; 5]%Z.
Proof.
  apply (callback_never_overflows EEcho 10 1 [2147483647; -2147483648; 5]%Z).
  - right. left. reflexivity.
  - lia.
  - repeat constructor; unfold is_int32; lia.
Defined.

End NoOverflow.

(** ** Causality *)

Section Streaming.

Lemma process_all_app xs : ∀ p zs,
  process_all p (xs ++ zs)
  = match process_all p xs with
    | Some (ys, q) =>
        match process_all q zs with
        | Some (ws, r) => Some (ys ++ ws, r)
        | None => None
        end
    | None => None
    end.
Proof.
  induction xs as [| s xs IH]; intros p zs; simpl.
  - destruct (process_all p zs) as [[ws r] |]; reflexivity.
  - destruct (process p s) as [[out q] |]; simpl; [| reflexivity].
    rewrite IH.
    destruct (process_all q xs) as [[ys q'] |]; simpl; [| reflexivity].
    destruct (process_all q' zs) as [[ws r] |]; reflexivity.
Qed.

(** Every effect is causal: the outputs for the first samples of an input
    are the outputs for those samples alone, whatever follows them. *)
Theorem run_is_causal (e : effect) (rate channels : Z) (xs zs : list R) :
  (0 < rate)%Z →
  ∃ ys ws, run e rate channels xs = Some ys ∧
           run e rate channels (xs ++ zs) = Some (ys ++ ws) ∧
           length ys = length xs.
Proof.
  intros Hr. unfold run.
  destruct (construct_has_history e rate channels Hr) as (p & -> & Hh & _).
  simpl. rewrite process_all_app.
  destruct (process_all_history xs p [] [] Hh) as (ys & q & -> & Hq & Hlen).
  destruct (process_all_history zs q _ _ Hq) as (ws & r & -> & _).
  simpl. exists ys, ws. auto.
Qed.

Lemma run_is_causal_witness :
  ∃ ys ws, run EBiquad 16000 1 [1; 2] = Some ys ∧
           run EBiquad 16000 1 ([1; 2] ++ [3; 4]) = Some (ys ++ ws) ∧
           length ys = length [1; 2]%R.
Proof.
  apply (run_is_causal EBiquad 16000 1 [1; 2] [3; 4]). lia.
Defined.

End Streaming.

(** * Recursive echo in binary64: the impulse response *)

Section Binary64Buffer.

Local Open Scope Z_scope.

Lemma b64_np_index_in (l : list float) i :
  0 ≤ i < Z.of_nat (length l) → Binary64.np_index l i = Some (Z.to_nat i).
Proof.
  intros [H0 H1]. unfold Binary64.np_index.
  destruct (Z.leb_spec 0 i); [| lia].
  destruct (Z.ltb_spec i (Z.of_nat (length l))); [reflexivity | lia].
Qed.

Lemma b64_get_ok b n :
  Binary64.buffer_ok b →
  Binary64.get b n
  = Binary64.buf b
      !! Z.to_nat ((Binary64.ix b + Binary64.length_ b - n)
                   mod Binary64.length_ b).
Proof.
  intros (Hc & Hl & Hi). unfold Binary64.get.
  rewrite np_mod_pos by assumption.
  rewrite b64_np_index_in; [reflexivity |].
  rewrite Hl. apply Z.mod_pos_bound. assumption.
Qed.

Lemma b64_push_ok b v :
  Binary64.buffer_ok b →
  Binary64.push b v
  = Some (Binary64.mkCircularBuffer (Binary64.length_ b)
            (<[Z.to_nat ((Binary64.ix b + 1) mod Binary64.length_ b) := v]>
               (Binary64.buf b))
            ((Binary64.ix b + 1) mod Binary64.length_ b)).
Proof.
  intros (Hc & Hl & Hi). unfold Binary64.push.
  rewrite np_mod_pos by assumption.
  rewrite b64_np_index_in; [reflexivity |].
  rewrite Hl. apply Z.mod_pos_bound. assumption.
Qed.

Lemma b64_init_holds max_delay :
  0 ≤ max_delay →
  ∃ b, Binary64.init max_delay = Some b ∧ Binary64.holds b [] ∧
       Binary64.length_ b = max_delay + 1.
Proof.
  intros Hd. unfold Binary64.init.
  destruct (Z.ltb_spec (max_delay + 1) 0); [lia |].
  eexists. split; [reflexivity |].
  assert (Hok : Binary64.buffer_ok
            (Binary64.mkCircularBuffer (max_delay + 1)
               (replicate (Z.to_nat (max_delay + 1)) 0%float)
               (max_delay + 1 - 1))).
  { unfold Binary64.buffer_ok. simpl. rewrite length_replicate. lia. }
  split; [| reflexivity]. split; [exact Hok |].
  intros k Hk. rewrite b64_get_ok by exact Hok. simpl in *.
  rewrite lookup_replicate_2.
  - now destruct (Z.to_nat k).
  - pose proof (Z.mod_pos_bound (max_delay + 1 - 1 + (max_delay + 1) - k)
                  (max_delay + 1)). lia.
Qed.

Lemma b64_push_holds b h v :
  Binary64.holds b h →
  ∃ b', Binary64.push b v = Some b' ∧ Binary64.holds b' (v :: h) ∧
        Binary64.length_ b' = Binary64.length_ b.
Proof.
  intros [Hb Hget].
  pose proof Hb as (Hc & Hl & Hi).
  set (c := Binary64.length_ b) in *.
  assert (Hix : (Binary64.ix b + 1) mod c
                = if Binary64.ix b + 1 <? c then Binary64.ix b + 1
                  else Binary64.ix b + 1 - c)
    by (apply mod_once; lia).
  assert (Hb' : Binary64.buffer_ok
            (Binary64.mkCircularBuffer c
               (<[Z.to_nat ((Binary64.ix b + 1) mod c) := v]> (Binary64.buf b))
               ((Binary64.ix b + 1) mod c))).
  { unfold Binary64.buffer_ok. simpl. rewrite length_insert.
    pose proof (Z.mod_pos_bound (Binary64.ix b + 1) c Hc). lia. }
  eexists. split; [apply b64_push_ok; exact Hb |].
  fold c. split; [| reflexivity]. split; [exact Hb' |].
  intros k Hk. rewrite b64_get_ok by exact Hb'. simpl in *.
  destruct (Z.eq_dec k 0) as [-> | Hk0].
  - replace ((Binary64.ix b + 1) mod c + c - 0)
      with ((Binary64.ix b + 1) mod c + 1 * c) by lia.
    rewrite Z.mod_add by lia. rewrite Z.mod_mod by lia.
    rewrite list_lookup_insert_eq; [reflexivity |].
    pose proof (Z.mod_pos_bound (Binary64.ix b + 1) c Hc). lia.
  - replace (Z.to_nat k) with (S (Z.to_nat (k - 1))) by lia. simpl.
    rewrite <- (Hget (k - 1)) by lia.
    rewrite b64_get_ok by exact Hb. fold c.
    assert (Hsame : ((Binary64.ix b + 1) mod c + c - k) mod c
                    = (Binary64.ix b + c - (k - 1)) mod c).
    { rewrite Hix.
      rewrite !mod_once by (destruct (Binary64.ix b + 1 <? c) eqn:E; lia).
      destruct (Z.ltb_spec (Binary64.ix b + 1) c);
        repeat match goal with
               | |- context [?u <? ?w] => destruct (Z.ltb_spec u w)
               end; lia. }
    rewrite Hsame. apply list_lookup_insert_ne.
    rewrite Hix. rewrite mod_once by lia.
    destruct (Z.ltb_spec (Binary64.ix b + 1) c);
      destruct (Z.ltb_spec (Binary64.ix b + c - (k - 1)) c); lia.
Qed.

End Binary64Buffer.

Section Binary64Echo.

Lemma b64_constructed rate channels p :
  Binary64.Recursive_Echo rate channels = Some p → (0 ≤ rate)%Z →
  Binary64.holds (Binary64.x p) [] ∧ Binary64.holds (Binary64.y p) [] ∧
  Binary64.a p = 0.7%float ∧ Binary64.norm p = (1 - 0.7 * 0.7)%float ∧
  Binary64.length_ (Binary64.x p) = (rate + 1)%Z ∧
  Binary64.length_ (Binary64.y p) = (rate + 1)%Z.
Proof.
  intros Hp Hr. unfold Binary64.Recursive_Echo in Hp.
  destruct (b64_init_holds rate Hr) as (b & Hinit & Hb & Hlen).
  rewrite Hinit in Hp. simpl in Hp.
  destruct (Binary64.float_of_int rate) as [sf |]; simpl in Hp;
    [| discriminate Hp].
  destruct (Binary64.int_of_float _) as [n |]; simpl in Hp;
    [| discriminate Hp].
  injection Hp as <-. simpl. auto 10.
Qed.

Lemma b64_process (n c : Z) p hx hy s :
  (0 ≤ n < c)%Z →
  Binary64.holds (Binary64.x p) hx → Binary64.holds (Binary64.y p) hy →
  Binary64.a p = 0.7%float → Binary64.norm p = (1 - 0.7 * 0.7)%float →
  Binary64.N p = n →
  Binary64.length_ (Binary64.x p) = c → Binary64.length_ (Binary64.y p) = c →
  ∃ q, Binary64.process p s
       = Some (Binary64.step (Z.to_nat n) (s :: hx) hy, q) ∧
       Binary64.holds (Binary64.x q) (s :: hx) ∧
       Binary64.holds (Binary64.y q)
         (Binary64.step (Z.to_nat n) (s :: hx) hy :: hy) ∧
       Binary64.a q = 0.7%float ∧ Binary64.norm q = (1 - 0.7 * 0.7)%float ∧
       Binary64.N q = n ∧
       Binary64.length_ (Binary64.x q) = c ∧ Binary64.length_ (Binary64.y q) = c.
Proof.
  intros Hn Hx Hy Ha Hnorm HN Hlx Hly.
  destruct (b64_push_holds _ hx s Hx) as (bx & Hpx & Hbx & Hlbx).
  assert (Hout : Binary64._process
            (Binary64.mkRecursive_Echo (Binary64.SF p) bx (Binary64.y p)
               (Binary64.a p) (Binary64.norm p) (Binary64.N p))
          = Some (Binary64.step (Z.to_nat n) (s :: hx) hy)).
  { unfold Binary64._process. simpl.
    rewrite (proj2 Hbx 0%Z) by lia.
    rewrite HN, (proj2 Hy n) by lia. simpl.
    rewrite Ha, Hnorm. reflexivity. }
  destruct (b64_push_holds _ hy (Binary64.step (Z.to_nat n) (s :: hx) hy) Hy)
    as (by_ & Hpy & Hby & Hlby).
  eexists. split.
  - unfold Binary64.process. rewrite Hpx. simpl. rewrite Hout. simpl.
    rewrite Hpy. reflexivity.
  - simpl. repeat split; try assumption; try congruence; apply Hbx || apply Hby.
Qed.

Lemma b64_run (n c : Z) xs : ∀ p hx hy,
  (0 ≤ n < c)%Z →
  Binary64.holds (Binary64.x p) hx → Binary64.holds (Binary64.y p) hy →
  Binary64.a p = 0.7%float → Binary64.norm p = (1 - 0.7 * 0.7)%float →
  Binary64.N p = n →
  Binary64.length_ (Binary64.x p) = c → Binary64.length_ (Binary64.y p) = c →
  ∃ q, Binary64.process_all p xs
       = Some (Binary64.difference_equation (Binary64.step (Z.to_nat n))
                 hx hy xs, q).
Proof.
  induction xs as [| s xs IH]; intros p hx hy Hn Hx Hy Ha Hnorm HN Hlx Hly;
    simpl.
  - eauto.
  - destruct (b64_process n c p hx hy s Hn Hx Hy Ha Hnorm HN Hlx Hly)
      as (q & Hrun & Hx' & Hy' & Ha' & Hnorm' & HN' & Hlx' & Hly').
    destruct (IH q _ _ Hn Hx' Hy' Ha' Hnorm' HN' Hlx' Hly') as (r & Hall).
    exists r. rewrite Hrun. simpl. rewrite Hall. reflexivity.
Qed.

Lemma b64_equation_length step xs : ∀ hx hy,
  length (Binary64.difference_equation step hx hy xs) = length xs.
Proof.
  induction xs as [| s xs IH]; intros hx hy; simpl; [| rewrite IH];
    reflexivity.
Qed.

Lemma b64_equation_nth step xs : ∀ hx hy n,
  (n < length xs)%nat →
  nth n (Binary64.difference_equation step hx hy xs) 0%float
  = step (rev (take (S n) xs) ++ hx)
         (rev (take n (Binary64.difference_equation step hx hy xs)) ++ hy).
Proof.
  induction xs as [| s xs IH]; intros hx hy n Hn; simpl in Hn; [lia |].
  destruct n as [| n]; simpl.
  - reflexivity.
  - rewrite IH by lia. rewrite <- !app_assoc. reflexivity.
Qed.

Lemma b64_nth_rev_take (ys : list float) (n k : nat) :
  (n ≤ length ys)%nat →
  nth k (rev (take n ys) ++ []) 0%float
  = if (k <? n)%nat then nth (n - 1 - k) ys 0%float else 0%float.
Proof.
  intros Hn. rewrite app_nil_r.
  assert (Hlen : length (take n ys) = n) by (apply length_take_le; exact Hn).
  destruct (Nat.ltb_spec k n).
  - rewrite rev_nth by lia. rewrite Hlen.
    replace (n - S k)%nat with (n - 1 - k)%nat by lia.
    rewrite nth_firstn.
    destruct (Nat.ltb_spec (n - 1 - k) n); [reflexivity | lia].
  - apply nth_overflow. rewrite length_rev. lia.
Qed.

Lemma b64_nth_impulse len n :
  nth n (Binary64.impulse len) 0%float
  = if (n =? 0)%nat then 1%float else 0%float.
Proof.
  destruct n as [| n]; simpl; [reflexivity |].
  rewrite nth_lookup.
  destruct (replicate len 0%float !! n) as [v |] eqn:E; simpl; [| reflexivity].
  apply lookup_replicate in E. tauto.
Qed.

Lemma b64_unfold (n : nat) (xs : list float) (i : nat) :
  (i < length xs)%nat →
  let ys := Binary64.difference_equation (Binary64.step n) [] [] xs in
  nth i ys 0%float
  = Binary64.feedback (nth i xs 0%float)
      (if (n <? i)%nat then nth (i - 1 - n) ys 0%float else 0%float).
Proof.
  intros Hi ys. unfold ys at 1.
  rewrite b64_equation_nth by exact Hi. fold ys.
  unfold Binary64.step.
  rewrite !b64_nth_rev_take
    by (unfold ys; rewrite ?b64_equation_length; lia).
  simpl. replace (i - 0 - 0)%nat with i by lia. reflexivity.
Qed.

(** The impulse response in binary64: the echoes, [n + 1] samples apart,
    are the floats [echo 0], [echo 1], ..., and the samples in between
    are exactly 0. *)
Lemma b64_impulse_response (n len : nat) (k : nat) : ∀ m,
  (m < S n)%nat → (k * S n + m ≤ len)%nat →
  nth (k * S n + m)
      (Binary64.difference_equation (Binary64.step n) [] []
         (Binary64.impulse len)) 0%float
  = if (m =? 0)%nat then Binary64.echo k else 0%float.
Proof.
  assert (Hsilent : Binary64.feedback 0 0 = 0%float) by reflexivity.
  induction k as [| k IH]; intros m Hm Hlen.
  - rewrite b64_unfold
      by (unfold Binary64.impulse; simpl; rewrite length_replicate; lia).
    rewrite b64_nth_impulse. simpl.
    destruct (Nat.ltb_spec n m); [lia |].
    destruct (Nat.eqb_spec m 0); [reflexivity | exact Hsilent].
  - rewrite b64_unfold
      by (unfold Binary64.impulse; simpl length; rewrite length_replicate; lia).
    rewrite b64_nth_impulse.
    destruct (Nat.eqb_spec (S k * S n + m) 0) as [E | _]; [simpl in E; lia |].
    destruct (Nat.ltb_spec n (S k * S n + m)) as [_ | E]; [| simpl in E; lia].
    replace (S k * S n + m - 1 - n)%nat with (k * S n + m)%nat by lia.
    rewrite IH by lia.
    destruct (Nat.eqb_spec m 0); [reflexivity | exact Hsilent].
Qed.

(** In binary64 too, with a delay of at least one sample the output at
    index [N] is exactly 0: the first echo comes one sample later. *)
Lemma Recursive_Echo_binary64_silent_at_N (rate channels : Z) (len : nat)
    (p : Binary64.Recursive_Echo_t) :
  Binary64.Recursive_Echo rate channels = Some p →
  (0 < Binary64.N p ≤ rate)%Z → (Z.to_nat (Binary64.N p) ≤ len)%nat →
  ∃ ys q,
    Binary64.process_all p (Binary64.impulse len) = Some (ys, q) ∧
    nth (Z.to_nat (Binary64.N p)) ys 0%float = 0%float.
Proof.
  intros Hp HN Hlen.
  destruct (b64_constructed rate channels p Hp ltac:(lia))
    as (Hx & Hy & Ha & Hnorm & Hlx & Hly).
  set (n := Z.to_nat (Binary64.N p)) in *.
  destruct (b64_run (Binary64.N p) (rate + 1) (Binary64.impulse len) p [] []
              ltac:(lia) Hx Hy Ha Hnorm eq_refl Hlx Hly) as (q & Hrun).
  fold n in Hrun.
  eexists. exists q. split; [exact Hrun |].
  pose proof (b64_impulse_response n len 0 n) as H.
  rewrite Nat.mul_0_l, Nat.add_0_l in H. rewrite H by lia.
  destruct (Nat.eqb_spec n 0); [lia | reflexivity].
Qed.

(** C7, amended, in binary64: fed the impulse, a fresh [Recursive_Echo]
    whose delay [N = int(0.3 * SF)] fits its buffer echoes with a period
    [P] of [N] or [N + 1] samples; the outputs at [P], [2P] and [3P] are
    nonzero and each is [norm * a] (not [a]) times the output one period
    before, up to a relative error of [1e-15]. *)
Theorem Recursive_Echo_echoes_binary64 (rate channels : Z) (len : nat)
    (p : Binary64.Recursive_Echo_t) :
  Binary64.Recursive_Echo rate channels = Some p →
  (0 ≤ Binary64.N p ≤ rate)%Z →
  ∃ ys q P,
    Binary64.process_all p (Binary64.impulse len) = Some (ys, q) ∧
    (Z.to_nat (Binary64.N p) ≤ P ≤ Z.to_nat (Binary64.N p) + 1)%nat ∧
    ∀ k, (1 ≤ k ≤ 3)%nat → (k * P ≤ len)%nat →
         Binary64.nonzero (nth (k * P) ys 0%float) = true ∧
         Binary64.within_tolerance (nth (k * P) ys 0%float)
           (Binary64.norm p * Binary64.a p
            * nth ((k - 1) * P) ys 0%float)%float = true.
Proof.
  intros Hp HN.
  destruct (b64_constructed rate channels p Hp ltac:(lia))
    as (Hx & Hy & Ha & Hnorm & Hlx & Hly).
  set (n := Z.to_nat (Binary64.N p)).
  destruct (b64_run (Binary64.N p) (rate + 1) (Binary64.impulse len) p [] []
              ltac:(lia) Hx Hy Ha Hnorm eq_refl Hlx Hly) as (q & Hrun).
  fold n in Hrun.
  eexists. exists q, (S n). split; [exact Hrun |]. split; [lia |].
  intros k Hk Hlen.
  assert (Hecho : ∀ j, (j * S n ≤ len)%nat →
            nth (j * S n)
                (Binary64.difference_equation (Binary64.step n) [] []
                   (Binary64.impulse len)) 0%float
            = Binary64.echo j).
  { intros j Hj.
    pose proof (b64_impulse_response n len j 0) as H.
    rewrite Nat.add_0_r in H. apply H; lia. }
  rewrite (Hecho k Hlen), (Hecho (k - 1)%nat) by nia.
  rewrite Ha, Hnorm.
  assert (Hcases : k = 1%nat ∨ k = 2%nat ∨ k = 3%nat) by lia.
  destruct Hcases as [-> | [-> | ->]]; split; vm_compute; reflexivity.
Qed.

Lemma Recursive_Echo_echoes_binary64_witness :
  let p := Binary64.mkRecursive_Echo 10
             (Binary64.mkCircularBuffer 11 (replicate 11 0%float) 10)
             (Binary64.mkCircularBuffer 11 (replicate 11 0%float) 10)
             0.7%float (1 - 0.7 * 0.7)%float 3 in
  Binary64.Recursive_Echo 10 1 = Some p ∧
  (0 ≤ Binary64.N p ≤ 10)%Z ∧
  ∃ ys q P,
    Binary64.process_all p (Binary64.impulse 12) = Some (ys, q) ∧
    (Z.to_nat (Binary64.N p) ≤ P ≤ Z.to_nat (Binary64.N p) + 1)%nat ∧
    ∀ k, (1 ≤ k ≤ 3)%nat → (k * P ≤ 12)%nat →
         Binary64.nonzero (nth (k * P) ys 0%float) = true ∧
         Binary64.within_tolerance (nth (k * P) ys 0%float)
           (Binary64.norm p * Binary64.a p
            * nth ((k - 1) * P) ys 0%float)%float = true.
Proof.
  intros p. split; [reflexivity |]. split; [simpl; lia |].
  apply (Recursive_Echo_echoes_binary64 10 1 12 p); [reflexivity | simpl; lia].
Defined.

(** The model runs: at rate 10 ([N = 3]) the echoes come every four
    samples. *)
Example Recursive_Echo_binary64_at_rate_10 :
  (p ← Binary64.Recursive_Echo 10 1;
   fst <$> Binary64.process_all p (Binary64.impulse 12))
  = Some [0.51000000000000001; 0; 0; 0; 0.18206999999999998; 0; 0; 0;
          0.064998989999999993; 0; 0; 0; 0.023204639429999997]%float.
Proof. vm_compute. reflexivity. Qed.

(** At the demo's rate the constructor computes [N = 4800], within the
    buffer of 16001 slots. *)
Example Recursive_Echo_binary64_N_at_16000 :
  (sf ← Binary64.float_of_int 16000; Binary64.int_of_float (0.3 * sf)%float)
  = Some 4800%Z.
Proof. vm_compute. reflexivity. Qed.

Lemma b64_delays_agree_sound count : ∀ lo rate,
  Binary64.delays_agree lo count = true →
  (lo ≤ rate < lo + Z.of_nat count)%Z →
  (sf ← Binary64.float_of_int rate; Binary64.int_of_float (0.3 * sf)%float)
  = Some (int_frac 3 10 rate).
Proof.
  induction count as [| c IH]; intros lo rate Hc Hr; [lia |].
  simpl in Hc. apply andb_prop in Hc. destruct Hc as [Hhere Hrest].
  destruct (Z.eq_dec rate lo) as [-> | Hne].
  - destruct (Binary64.float_of_int lo ≫= _) as [n |]; [| discriminate Hhere].
    apply Z.eqb_eq in Hhere. congruence.
  - apply (IH (lo + 1)%Z rate Hrest). lia.
Qed.

(** At every rate from 1 to 50000 samples per second the delay computed
    in binary64 is [int_frac 3 10 rate], so it fits the buffer. *)
Lemma b64_delay_fits (rate channels : Z) :
  (1 ≤ rate ≤ 50000)%Z →
  ∃ p, Binary64.Recursive_Echo rate channels = Some p ∧
       Binary64.N p = int_frac 3 10 rate ∧ (0 ≤ Binary64.N p ≤ rate)%Z.
Proof.
  intros Hr.
  assert (Hall : Binary64.delays_agree 1 (Z.to_nat 50000) = true)
    by (vm_compute; reflexivity).
  pose proof (b64_delays_agree_sound _ 1 rate Hall ltac:(lia)) as HN.
  clear Hall. unfold Binary64.Recursive_Echo.
  destruct (b64_init_holds rate ltac:(lia)) as (b & -> & _). simpl.
  destruct (Binary64.float_of_int rate) as [sf |]; simpl in HN |- *;
    [| discriminate HN].
  rewrite HN. simpl. eexists. split; [reflexivity |]. simpl.
  split; [reflexivity |].
  apply int_frac_bounds. lia.
Qed.

End Binary64Echo.
